(** * high-perf-data-pipeline: the catalogue cleaning pipeline of [pipeline.py]

    A shallow embedding of [src/pipeline.py]: price normalisation,
    fingerprint generation, anomaly filtering and aggregation, written
    stage by stage as the Polars expression chains of the source, and the
    properties of the specification that are checked against them.

    A frame is a list of rows in file order; a nullable column is an
    [option]; Float64 is IEEE binary64 (the standard library's executable
    [SpecFloat] model); text is a list of Unicode code points. *)

From Stdlib Require Import ZArith NArith List Bool String Ascii Lia.
From Stdlib Require Import Sorting.Sorted Sorting.Permutation.
From Stdlib Require Import Floats.SpecFloat.
Import ListNotations.

Set Implicit Arguments.

Local Open Scope string_scope.
Local Open Scope list_scope.

(* ===================================================================== *)
(** ** Float64 *)
(* ===================================================================== *)

Module F64.

Definition prec : Z := 53.
Definition emax : Z := 1024.

Definition t := spec_float.

Definition zero : t := S754_zero false.

Definition add : t -> t -> t := SFadd prec emax.
Definition mul : t -> t -> t := SFmul prec emax.
Definition div : t -> t -> t := SFdiv prec emax.

(** An integer as the nearest binary64 (exact below 2^53). *)
Definition of_Z (z : Z) : t := binary_normalize prec emax z 0 false.

Definition of_nat (n : nat) : t := of_Z (Z.of_nat n).

(** [of_decimal m k] is the binary64 nearest to [m / 10^k] (ties to
    even): the value of a decimal literal with digits [m] and [k] digits
    after the point, as a float parser or the Python reader gives it. *)
Definition of_decimal (m : N) (k : N) : t :=
  match m with
  | N0 => zero
  | Npos p =>
      let '(q, e, l) :=
        SFdiv_core_binary prec emax (Zpos p) 0 (10 ^ Z.of_N k) 0 in
      binary_round_aux prec emax false q e l
  end.

Definition is_nan (x : t) : bool :=
  match x with S754_nan => true | _ => false end.

(** Polars compares floats in a total order: NaN equals NaN and is
    greater than every other value; the rest is the IEEE order. *)
Definition tot_cmp (x y : t) : comparison :=
  match is_nan x, is_nan y with
  | true, true => Eq
  | true, false => Gt
  | false, true => Lt
  | false, false =>
      match SFcompare x y with Some c => c | None => Eq end
  end.

Definition gt (x y : t) : bool :=
  match tot_cmp x y with Gt => true | _ => false end.
Definition ge (x y : t) : bool :=
  match tot_cmp x y with Lt => false | _ => true end.
Definition le (x y : t) : bool :=
  match tot_cmp x y with Gt => false | _ => true end.

(** How [round] breaks a tie: half away from zero (Rust's [f64::round])
    or half to even; Polars has used both as its default. *)
Inductive RoundMode := HalfAwayFromZero | HalfToEven.

(** Rounding to an integral value. *)
Definition round_integral (mode : RoundMode) (x : t) : t :=
  match x with
  | S754_finite s m (Zneg p) =>
      let d := (2 ^ Zpos p)%Z in
      let q := (Zpos m / d)%Z in
      let r := (Zpos m mod d)%Z in
      let up :=
        match (2 * r ?= d)%Z with
        | Lt => false
        | Gt => true
        | Eq => match mode with
                | HalfAwayFromZero => true
                | HalfToEven => negb (Z.even q)
                end
        end in
      match (if up then q + 1 else q)%Z with
      | Z0 => S754_zero s
      | Zpos n => binary_round prec emax s n 0
      | Zneg _ => S754_nan
      end
  | _ => x
  end.

(** [Expr.round(decimals)] on Float64: scale by [10^decimals], round to
    an integral value, scale back. *)
Definition round (mode : RoundMode) (decimals : N) (x : t) : t :=
  let multiplier := of_Z (10 ^ Z.of_N decimals) in
  div (round_integral mode (mul x multiplier)) multiplier.

(** The sum of a column, taken in row order. *)
Definition sum (xs : list t) : t := fold_left add xs zero.

End F64.

Abbreviation f64 := F64.t.

(* ===================================================================== *)
(** ** Text *)
(* ===================================================================== *)

(** A Polars string is UTF-8 text; the regular expressions of the source
    and [len_chars] work on its code points. *)
Definition codepoint := N.
Definition str := list codepoint.

(** Decoding of a UTF-8 literal into its code points. *)
Fixpoint utf8_go (need : nat) (acc : N) (s : string) : str :=
  match s with
  | EmptyString => []
  | String a s' =>
      let b := N_of_ascii a in
      match need with
      | O =>
          if (b <? 128)%N then b :: utf8_go 0 0 s'
          else if (b <? 224)%N then utf8_go 1 (b - 192) s'
          else if (b <? 240)%N then utf8_go 2 (b - 224) s'
          else utf8_go 3 (b - 240) s'
      | S n =>
          let acc' := (acc * 64 + (b - 128))%N in
          match n with
          | O => acc' :: utf8_go 0 0 s'
          | S _ => utf8_go n acc' s'
          end
      end
  end.

Definition utf8 (s : string) : str := utf8_go 0 0 s.

Module Text.

Local Open Scope N_scope.

Definition eqb (a b : str) : bool :=
  if list_eq_dec N.eq_dec a b then true else false.

Definition in_range (lo hi c : codepoint) : bool :=
  ((lo <=? c) && (c <=? hi))%N.

Definition is_digit (c : codepoint) : bool := in_range 48 57 c.
Definition is_lower_az (c : codepoint) : bool := in_range 97 122 c.
Definition is_upper_az (c : codepoint) : bool := in_range 65 90 c.

(** [\s] of the regex engine and the characters [strip_chars] trims:
    the Unicode White_Space set. *)
Definition is_space (c : codepoint) : bool :=
  in_range 9 13 c || (c =? 32)%N || (c =? 133)%N || (c =? 160)%N
  || (c =? 5760)%N || in_range 8192 8202 c || (c =? 8232)%N
  || (c =? 8233)%N || (c =? 8239)%N || (c =? 8287)%N || (c =? 12288)%N.

(** [\w], which decides [\b]: letters, digits and the underscore. The
    table covers U+0000..U+00FF (Basic Latin and Latin-1 Supplement), the
    range of the feed; a code point above it counts as a non-word
    character here. *)
Definition is_word (c : codepoint) : bool :=
  is_digit c || is_upper_az c || is_lower_az c || (c =? 95)%N
  || (c =? 170)%N || (c =? 181)%N || (c =? 186)%N
  || in_range 192 214 c || in_range 216 246 c || in_range 248 255 c.

(** [str.to_lowercase] on the same range: A-Z and the Latin-1 capitals
    (U+00C0..U+00DE without the multiplication sign) move down by 32. *)
Definition lower_char (c : codepoint) : codepoint :=
  if is_upper_az c || (in_range 192 222 c && negb (c =? 215)%N)
  then (c + 32)%N else c.

Definition to_lowercase (s : str) : str := map lower_char s.

Definition len_chars (s : str) : nat := List.length s.

(** [str.contains] for a pattern that is one literal character. *)
Definition contains_char (c : codepoint) (s : str) : bool :=
  existsb (N.eqb c) s.

(** [str.replace_all] for a pattern that is one character class: every
    character of the class is replaced by [value]. *)
Definition replace_all_class (cls : codepoint -> bool) (value : str)
    (s : str) : str :=
  flat_map (fun c => if cls c then value else [c]) s.

(** [str.replace] for a pattern that is one literal character: only the
    first occurrence is replaced. *)
Fixpoint replace_first_char (c : codepoint) (value : str) (s : str) : str :=
  match s with
  | [] => []
  | x :: s' =>
      if (x =? c)%N then value ++ s'
      else x :: replace_first_char c value s'
  end.

(** [str.replace_all] for a pattern [cls+]: every maximal run of the
    class is replaced by [value]. *)
Fixpoint replace_all_runs (cls : codepoint -> bool) (value : str)
    (in_run : bool) (s : str) : str :=
  match s with
  | [] => []
  | c :: s' =>
      if cls c then
        if in_run then replace_all_runs cls value true s'
        else value ++ replace_all_runs cls value true s'
      else c :: replace_all_runs cls value false s'
  end.

Fixpoint strip_start (s : str) : str :=
  match s with
  | c :: s' => if is_space c then strip_start s' else s
  | [] => []
  end.

(** [str.strip_chars()] without argument: white space off both ends. *)
Definition strip_chars (s : str) : str :=
  rev (strip_start (rev (strip_start s))).

(** [str.split] by a one-character separator; the empty text splits
    into one empty piece. *)
Fixpoint split_go (sep : codepoint) (cur : str) (s : str) : list str :=
  match s with
  | [] => [rev cur]
  | c :: s' =>
      if (c =? sep)%N then rev cur :: split_go sep [] s'
      else split_go sep (c :: cur) s'
  end.

Definition split (sep : codepoint) (s : str) : list str := split_go sep [] s.

(** [list.join]. *)
Fixpoint join (sep : str) (l : list str) : str :=
  match l with
  | [] => []
  | [x] => x
  | x :: l' => x ++ sep ++ join sep l'
  end.

(** Lexicographic order on code points, the order of [list.sort]. *)
Fixpoint leb (a b : str) : bool :=
  match a, b with
  | [], _ => true
  | _ :: _, [] => false
  | x :: a', y :: b' =>
      if (x <? y)%N then true
      else if (y <? x)%N then false
      else leb a' b'
  end.

Fixpoint is_prefix (p s : str) : bool :=
  match p, s with
  | [], _ => true
  | _ :: _, [] => false
  | x :: p', y :: s' => (x =? y)%N && is_prefix p' s'
  end.

End Text.

(** A stable insertion sort; [le x y] says that [x] may stand before
    [y]. Equal elements keep their order. *)
Section Sort.
Variable A : Type.
Variable le : A -> A -> bool.

Fixpoint insert_sorted (x : A) (l : list A) : list A :=
  match l with
  | [] => [x]
  | y :: l' => if le x y then x :: l else y :: insert_sorted x l'
  end.

Fixpoint sort (l : list A) : list A :=
  match l with
  | [] => []
  | x :: l' => insert_sorted x (sort l')
  end.
End Sort.

(* ===================================================================== *)
(** ** Nullable columns *)
(* ===================================================================== *)

(** Arithmetic and comparisons propagate null; [&] is three-valued;
    [when/then/otherwise] takes the [otherwise] branch on null; [filter]
    keeps the rows whose predicate is true. *)
Module Null.

Definition lift2 {A B C} (f : A -> B -> C) (x : option A) (y : option B)
    : option C :=
  match x, y with
  | Some a, Some b => Some (f a b)
  | _, _ => None
  end.

Definition and (x y : option bool) : option bool :=
  match x, y with
  | Some false, _ | _, Some false => Some false
  | Some true, Some true => Some true
  | _, _ => None
  end.

Definition when_then_otherwise {A} (c : option bool) (a b : A) : A :=
  match c with Some true => a | _ => b end.

Definition is_true (c : option bool) : bool :=
  match c with Some true => true | _ => false end.

End Null.

(* ===================================================================== *)
(** ** The pipeline *)
(* ===================================================================== *)

Definition dollar : codepoint := 36%N.
Definition comma : codepoint := 44%N.
Definition period : codepoint := 46%N.
Definition space : codepoint := 32%N.

(** [PipelineConfig], with its defaults in [make_config]. The synonym
    dictionary keeps its insertion order. *)
Record PipelineConfig := {
  input_path : str;
  output_path : str;
  usd_to_eur_rate : f64;
  min_price_eur : f64;
  max_price_multiplier : f64;
  price_scale_threshold : f64;
  synonyms : list (str * str)
}.

Definition default_synonyms : list (str * str) :=
  [ (utf8 "ps5", utf8 "playstation 5");
    (utf8 "ps4", utf8 "playstation 4");
    (utf8 "s21", utf8 "galaxy s21");
    (utf8 "macbook", utf8 "apple macbook");
    (utf8 "playstation5", utf8 "playstation 5") ].

Definition make_config (input output : str) (rate : f64) : PipelineConfig :=
  {| input_path := input;
     output_path := output;
     usd_to_eur_rate := rate;
     min_price_eur := F64.of_decimal 50 1;
     max_price_multiplier := F64.of_decimal 100 1;
     price_scale_threshold := F64.of_decimal 100000 1;
     synonyms := default_synonyms |}.

(** The five columns [load_lazy_data] names, in file order. *)
Record RawRow := {
  id : Z;
  raw_name : str;
  raw_price : str;
  shop : str;
  date : str
}.

(** A row after [normalize_pricing]: the source columns and the four the
    stage adds. *)
Record PricedRow := {
  raw : RawRow;
  is_usd : bool;
  raw_float : option f64;
  corrected_float : option f64;
  price_final : option f64
}.

(** A row after [generate_fingerprints]. *)
Record EnrichedRow := {
  priced : PricedRow;
  fingerprint : str
}.

(** A row inside [filter_anomalies], with the window column. *)
Record JudgedRow := {
  enriched : EnrichedRow;
  group_mean : option f64
}.

(** A row of the result, after the final [select]. *)
Record AggregateRecord := {
  display_title : option str;
  avg_price : option f64;
  occurrence_count : nat
}.

(** *** Price Normalizer *)

(** [cast(pl.Float64, strict=False)] on what the two replacements leave:
    digits with at most one point and at least one digit parse, anything
    else (the empty text, a second separator) is null. Signs, exponents
    and the spellings of infinity cannot occur: their characters were
    removed. *)
Fixpoint digits_value (acc : N) (s : str) : N :=
  match s with
  | [] => acc
  | c :: s' => digits_value (acc * 10 + (c - 48))%N s'
  end.

Fixpoint span_digits (s : str) : str * str :=
  match s with
  | c :: s' =>
      if Text.is_digit c then
        let '(ds, rest) := span_digits s' in (c :: ds, rest)
      else ([], s)
  | [] => ([], [])
  end.

Definition is_nil {A} (l : list A) : bool :=
  match l with [] => true | _ => false end.

Definition cast_float64 (s : str) : option f64 :=
  let '(int_part, rest) := span_digits s in
  match rest with
  | [] =>
      if is_nil int_part then None
      else Some (F64.of_decimal (digits_value 0 int_part) 0)
  | c :: frac =>
      if (c =? period)%N && forallb Text.is_digit frac
         && negb (is_nil int_part && is_nil frac)
      then Some (F64.of_decimal (digits_value 0 (int_part ++ frac))
                   (N.of_nat (List.length frac)))
      else None
  end.

Definition is_price_char (c : codepoint) : bool :=
  Text.is_digit c || (c =? comma)%N || (c =? period)%N.

Section Stages.

(** The tie rule of the engine's [round]. *)
Variable ties : F64.RoundMode.

Definition normalize_row (config : PipelineConfig) (r : RawRow) : PricedRow :=
  let is_usd := Text.contains_char dollar (raw_price r) in
  let raw_float :=
    cast_float64
      (Text.replace_first_char comma [period]
         (Text.replace_all_class (fun c => negb (is_price_char c)) []
            (raw_price r))) in
  let corrected_float :=
    Null.when_then_otherwise
      (Null.lift2 F64.gt raw_float (Some (price_scale_threshold config)))
      (Null.lift2 F64.div raw_float (Some (F64.of_Z 100)))
      raw_float in
  let price_final :=
    option_map (F64.round ties 2)
      (Null.when_then_otherwise (Some is_usd)
         (Null.lift2 F64.div corrected_float
            (Some (usd_to_eur_rate config)))
         corrected_float) in
  {| raw := r;
     is_usd := is_usd;
     raw_float := raw_float;
     corrected_float := corrected_float;
     price_final := price_final |}.

Definition normalize_pricing (lf : list RawRow) (config : PipelineConfig)
    : list PricedRow :=
  map (normalize_row config) lf.

(** *** Fingerprint Generator *)

(** [str.replace_many(keys, vals)]: one Aho-Corasick pass over the text
    with the library's default match semantics. The scan reports a match
    as soon as some pattern ends (of the patterns ending there, the one
    reaching furthest back; of equal patterns, the first listed), writes
    its replacement and resumes after the match: matches do not overlap
    and written text is never scanned. [seen] holds, reversed, the text
    read since the last match. A pattern that is the empty text is outside
    the modelled domain and is passed over. *)
Definition better_match (seen : str) (best : option (str * str))
    (rule : str * str) : option (str * str) :=
  if is_nil (fst rule) then best
  else if Text.is_prefix (rev (fst rule)) seen then
    match best with
    | Some b =>
        if (List.length (fst b) <? List.length (fst rule))%nat
        then Some rule else best
    | None => Some rule
    end
  else best.

Definition match_ending_here (rules : list (str * str)) (seen : str)
    : option (str * str) :=
  fold_left (better_match seen) rules None.

Fixpoint replace_many_go (rules : list (str * str)) (seen : str) (s : str)
    : str :=
  match s with
  | [] => rev seen
  | c :: s' =>
      match match_ending_here rules (c :: seen) with
      | Some (k, v) =>
          rev (skipn (List.length k) (c :: seen)) ++ v
            ++ replace_many_go rules [] s'
      | None => replace_many_go rules (c :: seen) s'
      end
  end.

Definition replace_many (patterns replace_with : list str) (s : str) : str :=
  replace_many_go (combine patterns replace_with) [] s.

(** The alternatives of the noise pattern, as they stand in the source
    file (the last one is spelled there with the two code points U+00C3
    U+00A9 between "limit" and "e"). *)
Definition stopwords : list str :=
  map utf8
    ["edition"; "eur"; "promo"; "soldes"; "offre"; "vente"; "version";
     "limitÃ©e"].

(** [\b]: exactly one of the two neighbours is a word character. *)
Definition word_boundary (before after : option codepoint) : bool :=
  let w o := match o with Some c => Text.is_word c | None => false end in
  xorb (w before) (w after).

(** The first alternative, in the order written, that matches at the head
    of [s] between two word boundaries. *)
Definition stopword_at (before : option codepoint) (s : str) : option str :=
  if word_boundary before (hd_error s) then
    find (fun w =>
            Text.is_prefix w s
            && word_boundary (hd_error (rev w))
                 (hd_error (skipn (List.length w) s)))
         stopwords
  else None.

(** [str.replace_all] of the noise pattern by the empty text: leftmost
      matches, left to right,
    without overlap. [skip] counts the characters of the current match
    still to drop. *)
Fixpoint remove_stopwords_go (skip : nat) (before : option codepoint)
    (s : str) : str :=
  match s with
  | [] => []
  | c :: s' =>
      match skip with
      | S k => remove_stopwords_go k (Some c) s'
      | O =>
          match stopword_at before s with
          | Some w => remove_stopwords_go (List.length w - 1) (Some c) s'
          | None => c :: remove_stopwords_go 0 (Some c) s'
          end
      end
  end.

Definition remove_stopwords (s : str) : str := remove_stopwords_go 0 None s.

Definition is_fingerprint_char (c : codepoint) : bool :=
  Text.is_lower_az c || Text.is_digit c || Text.is_space c.

(** The expression chain of [generate_fingerprints] on one name. *)
Definition fingerprint_of (synonyms : list (str * str)) (name : str) : str :=
  let keys := map fst synonyms in
  let vals := map snd synonyms in
  let s := Text.to_lowercase name in
  let s := replace_many keys vals s in
  let s := remove_stopwords s in
  let s := Text.replace_all_class (fun c => negb (is_fingerprint_char c))
             [space] s in
  let s := Text.replace_all_runs Text.is_space [space] false s in
  let s := Text.strip_chars s in
  Text.join [space] (sort Text.leb (Text.split space s)).

Definition generate_fingerprints (lf : list PricedRow)
    (synonyms : list (str * str)) : list EnrichedRow :=
  map (fun r => {| priced := r;
                   fingerprint := fingerprint_of synonyms (raw_name (raw r)) |})
      lf.

(** *** Anomaly Filter *)

(** [Expr.mean]: nulls are left out; the mean of no value is null. *)
Fixpoint drop_nulls {A} (col : list (option A)) : list A :=
  match col with
  | [] => []
  | Some x :: col' => x :: drop_nulls col'
  | None :: col' => drop_nulls col'
  end.

Definition mean (col : list (option f64)) : option f64 :=
  let vals := drop_nulls col in
  if is_nil vals then None
  else Some (F64.div (F64.sum vals) (F64.of_nat (List.length vals))).

Definition price_of (r : EnrichedRow) : option f64 := price_final (priced r).

Definition same_fingerprint (key : str) (r : EnrichedRow) : bool :=
  Text.eqb (fingerprint r) key.

(** [pl.col("price_final").mean().over("fingerprint")] at one row: the
    mean of the column over the rows of the frame that share the row's
    fingerprint. *)
Definition mean_over_fingerprint (lf : list EnrichedRow) (r : EnrichedRow)
    : option f64 :=
  mean (map price_of (filter (same_fingerprint (fingerprint r)) lf)).

Definition with_group_mean (lf : list EnrichedRow) : list JudgedRow :=
  map (fun r => {| enriched := r;
                   group_mean := mean_over_fingerprint lf r |}) lf.

(** The predicate of [filter]: three comparisons joined by [&]. *)
Definition keep_row (config : PipelineConfig) (r : JudgedRow) : option bool :=
  Null.and
    (Null.and
       (Null.lift2 F64.ge (price_of (enriched r))
          (Some (min_price_eur config)))
       (Null.lift2 F64.le (price_of (enriched r))
          (Null.lift2 F64.mul (group_mean r)
             (Some (max_price_multiplier config)))))
    (Some (1 <? Text.len_chars (fingerprint (enriched r)))%nat).

Definition filter_anomalies (lf : list EnrichedRow) (config : PipelineConfig)
    : list JudgedRow :=
  filter (fun r => Null.is_true (keep_row config r)) (with_group_mean lf).

(** *** Aggregator *)

(** The distinct values of a column, each at its first occurrence. *)
Fixpoint distinct (keys : list str) : list str :=
  match keys with
  | [] => []
  | k :: keys' => k :: filter (fun k' => negb (Text.eqb k' k)) (distinct keys')
  end.

Definition key_of (r : JudgedRow) : str := fingerprint (enriched r).

(** [group_by("fingerprint")]: one group per distinct fingerprint, each
    holding its rows in frame order. The engine leaves the order of the
    groups open; here they stand in order of first occurrence. *)
Definition group_by (lf : list JudgedRow) : list (str * list JudgedRow) :=
  map (fun k => (k, filter (fun r => Text.eqb (key_of r) k) lf))
      (distinct (map key_of lf)).

Definition name_of (r : JudgedRow) : str := raw_name (raw (priced (enriched r))).

(** [sort_by(key, descending=True)]: greatest key first; rows with equal
    keys keep their order (the sort is taken to be stable). *)
Definition sort_by_descending {A} (key : A -> nat) (l : list A) : list A :=
  sort (fun a b => (key b <=? key a)%nat) l.

(** The three aggregations of [agg] on one group. *)
Definition agg (group : list JudgedRow) : AggregateRecord :=
  {| display_title :=
       hd_error (sort_by_descending Text.len_chars (map name_of group));
     avg_price :=
       option_map (F64.round ties 2)
         (mean (map (fun r => price_of (enriched r)) group));
     occurrence_count := List.length group |}.

(** [group_by.agg] followed by [sort("occurrence_count",
    descending=True)], the fingerprint still attached. *)
Definition aggregate_keyed (lf : list JudgedRow)
    : list (str * AggregateRecord) :=
  sort_by_descending (fun kr => occurrence_count (snd kr))
    (map (fun kg => (fst kg, agg (snd kg))) (group_by lf)).

(** [aggregate_products]: the final [select] drops the fingerprint. *)
Definition aggregate_products (lf : list JudgedRow) : list AggregateRecord :=
  map snd (aggregate_keyed lf).

(** *** Source Reader and entry point *)

(** What the file system holds at a path: nothing, a well-formed feed, or
    a file the CSV reader rejects when the plan is run. *)
Inductive Source :=
  | Missing
  | Feed (rows : list RawRow)
  | Malformed.

Record World := {
  source_at : str -> Source;
  sink_accepts : str -> bool
  }.

Inductive Failure :=
  | FileNotFoundError (source : str)
  | ComputeError
  | WriteError (target : str).

(** The records written through [logger]. *)
Inductive LogRecord :=
  | Info_scanning (source : str)
  | Info_starting (input : str) (rate : f64)
  | Info_success (output : str)
  | Error_failed (e : Failure).

(** A computation that logs and then raises or returns. *)
Definition Run (A : Type) : Type := list LogRecord * (Failure + A).

Definition ret {A} (a : A) : Run A := ([], inr a).
Definition raise {A} (e : Failure) : Run A := ([], inl e).
Definition log (r : LogRecord) : Run unit := ([r], inr tt).
Definition bind {A B} (m : Run A) (k : A -> Run B) : Run B :=
  match m with
  | (l, inl e) => (l, inl e)
  | (l, inr a) => let '(l', r) := k a in (l ++ l', r)
  end.

Notation "x <- m ;; k" := (bind m (fun x => k))
  (at level 61, m at next level, right associativity).
Notation "m ;;; k" := (bind m (fun _ => k))
  (at level 61, right associativity).

(** A lazy frame: the rows its scan yields once the plan is run. *)
Definition LazyFrame (A : Type) : Type := Failure + list A.

Definition pipe {A B} (lf : LazyFrame A) (stage : list A -> list B)
    : LazyFrame B :=
  match lf with
  | inl e => inl e
  | inr rows => inr (stage rows)
  end.

Definition load_lazy_data (w : World) (source : str) : Run (LazyFrame RawRow) :=
  match source_at w source with
  | Missing => raise (FileNotFoundError source)
  | Feed rows => log (Info_scanning source) ;;; ret (inr rows)
  | Malformed => log (Info_scanning source) ;;; ret (inl ComputeError)
  end.

(** [sink_csv]: runs the plan and writes the rows. *)
Definition sink_csv {A} (w : World) (lf : LazyFrame A) (target : str)
    : Run (str * list A) :=
  match lf with
  | inl e => raise e
  | inr rows =>
      if sink_accepts w target then ret (target, rows)
      else raise (WriteError target)
  end.

Record Args := {
  arg_input : str;
  arg_output : str;
  arg_rate : f64
  }.

Record Outcome := {
  logged : list LogRecord;
  exit_status : nat;
  written : option (str * list AggregateRecord)
  }.

(** The body of [try] in [main]. *)
Definition run_pipeline (w : World) (config : PipelineConfig)
    : Run (str * list AggregateRecord) :=
  lf <- load_lazy_data w (input_path config) ;;
  let pipeline :=
    pipe (pipe (pipe (pipe lf
      (fun rows => normalize_pricing rows config))
      (fun rows => generate_fingerprints rows (synonyms config)))
      (fun rows => filter_anomalies rows config))
      aggregate_products in
  log (Info_starting (input_path config) (usd_to_eur_rate config)) ;;;
  out <- sink_csv w pipeline (output_path config) ;;
  log (Info_success (output_path config)) ;;;
  ret out.

(** [main]: any exception is logged and ends the process with status 1;
    otherwise the process ends with status 0. *)
Definition main (w : World) (args : Args) : Outcome :=
  let config :=
    make_config (arg_input args) (arg_output args) (arg_rate args) in
  match run_pipeline w config with
  | (l, inr out) =>
      {| logged := l; exit_status := 0; written := Some out |}
  | (l, inl e) =>
      {| logged := l ++ [Error_failed e]; exit_status := 1; written := None |}
  end.

End Stages.

(** A row with its price text replaced, to write test frames. *)
Definition with_price (r : RawRow) (p : str) : RawRow :=
  {| id := id r; raw_name := raw_name r; raw_price := p;
     shop := shop r; date := date r |}.

Definition blank_row : RawRow :=
  {| id := 0; raw_name := []; raw_price := []; shop := []; date := [] |}.

(* ===================================================================== *)
(** ** The statements of the specification and test frames *)
(* ===================================================================== *)

Definition test_prices : list str :=
  map utf8 ["$110.00"; "197200"; "€ 50,00"; "invalid"].

Definition test_synonyms : list (str * str) :=
  [(utf8 "ps5", utf8 "playstation 5")].

Definition empty_world : World :=
  {| source_at := fun _ => Missing; sink_accepts := fun _ => true |}.

Definition sample_args : Args :=
  {| arg_input := utf8 "dirty_catalogue.csv";
     arg_output := utf8 "clean.csv";
     arg_rate := F64.of_decimal 110 2 |}.

(** The four conditions of Phase B in the words of the specification, for
    a row [r] of the frame [lf] that reaches the filter. *)
Definition survives (config : PipelineConfig) (lf : list EnrichedRow)
    (r : EnrichedRow) : bool :=
  match price_of r with
  | None => false
  | Some p =>
      F64.ge p (min_price_eur config)
      && match mean_over_fingerprint lf r with
         | Some m => F64.le p (F64.mul m (max_price_multiplier config))
         | None => false
         end
      && (1 <? Text.len_chars (fingerprint r))%nat
  end.

(** The unweighted arithmetic mean in the words of the specification: the
    sum of the values over their number; no value, no mean. *)
Definition arithmetic_mean (vals : list f64) : option f64 :=
  match vals with
  | [] => None
  | _ :: _ =>
      Some (F64.div (fold_left F64.add vals F64.zero)
              (F64.of_nat (List.length vals)))
  end.

(** The non-null prices of the rows of [lf] that carry fingerprint [key]. *)
Definition priced_peers (lf : list EnrichedRow) (key : str) : list f64 :=
  drop_nulls (map price_of (filter (same_fingerprint key) lf)).

(** Two listings of one product, one of them priced below the floor. *)
Definition two_listings : list EnrichedRow :=
  generate_fingerprints
    (normalize_pricing F64.HalfToEven
       [ {| id := 1; raw_name := utf8 "Sony TV"; raw_price := utf8 "1";
            shop := utf8 "Fnac"; date := utf8 "2023-10-01" |};
         {| id := 2; raw_name := utf8 "sony tv"; raw_price := utf8 "100";
            shop := utf8 "Darty"; date := utf8 "2023-10-02" |} ]
       (make_config [] [] (F64.of_decimal 110 2)))
    default_synonyms.

Definition listing (n : Z) (name price : string) : RawRow :=
  {| id := n; raw_name := utf8 name; raw_price := utf8 price;
     shop := utf8 "Fnac"; date := utf8 "2023-10-01" |}.

Definition run_stages (ties : F64.RoundMode) (config : PipelineConfig)
    (rows : list RawRow) : list JudgedRow :=
  filter_anomalies
    (generate_fingerprints (normalize_pricing ties rows config)
       (synonyms config))
    config.

Definition test_config : PipelineConfig :=
  make_config (utf8 "dummy_in.csv") (utf8 "dummy_out.csv")
    (F64.of_decimal 110 2).

(** Three listings of one product; the two longest names tie. *)
Definition three_listings : list JudgedRow :=
  run_stages F64.HalfToEven test_config
    [ listing 1 "Sony TV" "100";
      listing 2 "Sony  TV" "110";
      listing 3 "SONY  TV" "120" ].







(** The whole chain of [main] between the reader and the writer. *)
Definition pipeline (ties : F64.RoundMode) (config : PipelineConfig)
    (rows : list RawRow) : list AggregateRecord :=
  aggregate_products ties (run_stages ties config rows).

(** The number the Price Normalizer reads in a price text. *)
Definition parsed_price (text : str) : option f64 :=
  cast_float64
    (Text.replace_first_char comma [period]
       (Text.replace_all_class (fun c => negb (is_price_char c)) [] text)).










(** Three products listed 5, 20 and 1 times. *)
Definition counted_feed : list RawRow :=
  repeat (listing 1 "Dell XPS 13" "999.00") 5
  ++ repeat (listing 2 "Sony TV" "100") 20
  ++ repeat (listing 3 "Asus Monitor 24" "150") 1.

Definition is_separator (c : codepoint) : bool :=
  (c =? comma)%N || (c =? period)%N.

(** The commas and periods of a text. *)
Definition count_separators (s : str) : nat :=
  List.length (filter is_separator s).

(** The text the float parser is given. *)
Definition cleaned_price (text : str) : str :=
  Text.replace_first_char comma [period] (filter is_price_char text).

Definition is_token_char (c : codepoint) : bool :=
  Text.is_lower_az c || Text.is_digit c.

(** A character a fingerprint may hold: a lower-case letter, a digit, or
    the separating space. *)
Definition fingerprint_alphabet (c : codepoint) : Prop :=
  is_token_char c = true \/ c = space.

(** The token list the chain sorts: what [str.split] yields. *)
Definition clean_tokens (synonyms : list (str * str)) (name : str)
    : list str :=
  let keys := map fst synonyms in
  let vals := map snd synonyms in
  let s := Text.to_lowercase name in
  let s := replace_many keys vals s in
  let s := remove_stopwords s in
  let s := Text.replace_all_class (fun c => negb (is_fingerprint_char c))
             [space] s in
  let s := Text.replace_all_runs Text.is_space [space] false s in
  let s := Text.strip_chars s in
  Text.split space s.

(** [occurs_in k s]: the text [k] stands somewhere in [s]. *)
Fixpoint occurs_in (k s : str) : bool :=
  Text.is_prefix k s
  || match s with
     | [] => false
     | _ :: s' => occurs_in k s'
     end.

Definition has_price (r : EnrichedRow) : bool :=
  match price_of r with Some _ => true | None => false end.

Definition count_key (lf : list JudgedRow) (k : str) : nat :=
  List.length (filter (fun j => Text.eqb (key_of j) k) lf).


(* ===================================================================== *)
(** ** Properties *)
(* ===================================================================== *)

(** *** Sorting *)

Section SortMembers.
Variable A : Type.
Variable le : A -> A -> bool.

Lemma insert_sorted_In (x y : A) (l : list A) :
  In y (insert_sorted le x l) <-> y = x \/ In y l.
Proof.
  induction l as [|z l IH]; simpl.
  - intuition congruence.
  - destruct (le x z); simpl; rewrite ?IH; intuition congruence.
Qed.

Lemma sort_In (y : A) (l : list A) :
  In y (sort le l) <-> In y l.
Proof.
  induction l as [|x l IH]; simpl; [tauto|].
  rewrite insert_sorted_In, IH. intuition congruence.
Qed.

End SortMembers.

Section SortFacts.
Variable A : Type.
Variable key : A -> nat.

Let desc (a b : A) : Prop := key b <= key a.

Lemma insert_descending (x : A) (l : list A) :
  StronglySorted desc l ->
  StronglySorted desc (insert_sorted (fun a b => (key b <=? key a)%nat) x l).
Proof.
  induction 1 as [|y l Hl IH Hy]; simpl.
  - repeat constructor.
  - destruct (Nat.leb_spec (key y) (key x)) as [Hle|Hgt].
    + constructor; [constructor; assumption|].
      constructor; [exact Hle|].
      rewrite Forall_forall in *. intros z Hz.
      unfold desc in *. specialize (Hy z Hz). lia.
    + constructor; [exact IH|].
      rewrite Forall_forall in *. intros z Hz.
      apply insert_sorted_In in Hz. destruct Hz as [->|Hz].
      * unfold desc. lia.
      * apply Hy, Hz.
Qed.

Lemma sort_by_descending_sorted (l : list A) :
  StronglySorted desc (sort_by_descending key l).
Proof.
  unfold sort_by_descending.
  induction l as [|x l IH]; simpl.
  - constructor.
  - apply insert_descending, IH.
Qed.

End SortFacts.

(** *** C1 *)

(** C1. With [usd_to_eur_rate = 1.10] and the default threshold 10000.0,
    the four test prices "$110.00", "197200", "€ 50,00" and "invalid"
    normalise to 100.0, 1972.0, 50.0 and null, whatever the other columns
    of the rows hold and whichever tie rule [round] uses. *)
Theorem normalize_pricing_test_prices :
  forall (ties : F64.RoundMode) (input output : str) (r1 r2 r3 r4 : RawRow),
    map price_final
      (normalize_pricing ties
         (map (fun rp => with_price (fst rp) (snd rp))
            (combine [r1; r2; r3; r4] test_prices))
         (make_config input output (F64.of_decimal 110 2)))
    = [Some (F64.of_Z 100); Some (F64.of_Z 1972); Some (F64.of_Z 50); None].
Proof.
  intros ties input output r1 r2 r3 r4.
  destruct ties; vm_compute; reflexivity.
Qed.

(** The scale correction is strict: exactly 10000 is left as it is, and
    it is applied before the conversion. *)
Lemma normalize_pricing_threshold_edge :
  forall (ties : F64.RoundMode) (input output : str),
    map price_final
      (normalize_pricing ties
         (map (fun p => with_price blank_row (utf8 p))
            ["10000"; "10000.01"; "$11000"])
         (make_config input output (F64.of_decimal 110 2)))
    = [Some (F64.of_Z 10000); Some (F64.of_Z 100); Some (F64.of_Z 100)].
Proof.
  intros ties input output. destruct ties; vm_compute; reflexivity.
Qed.

(** *** C4 *)

(** C4. What the fingerprint chain of the source yields on the two names
    of [test_fingerprint_generation]: the second name gives
    "5 playstation sony", the first gives "5 e limit playstation sony",
    because the noise pattern does not contain the word "limitée" as the
    name spells it; the two fingerprints differ. *)
Theorem fingerprint_of_test_names :
  fingerprint_of test_synonyms (utf8 "Sony PS5 Edition Limitée")
    = utf8 "5 e limit playstation sony"
  /\ fingerprint_of test_synonyms (utf8 "Promo Sony PlayStation 5")
    = utf8 "5 playstation sony"
  /\ fingerprint_of test_synonyms (utf8 "Sony PS5 Edition Limitée")
    <> fingerprint_of test_synonyms (utf8 "Promo Sony PlayStation 5").
Proof.
  split; [|split]; try (vm_compute; reflexivity).
  vm_compute. discriminate.
Qed.

(** Without the accented word the two names do meet. *)
Lemma fingerprint_of_plain_names :
  fingerprint_of test_synonyms (utf8 "Sony PS5 Edition")
    = fingerprint_of test_synonyms (utf8 "Promo Sony PlayStation 5").
Proof. vm_compute; reflexivity. Qed.

(** *** C7 *)

(** C7. The records [aggregate_products] emits are in descending order of
    [occurrence_count]: every record has a count at least as large as
    each record after it. *)
Theorem aggregate_products_descending :
  forall (ties : F64.RoundMode) (lf : list JudgedRow),
    StronglySorted
      (fun a b => occurrence_count b <= occurrence_count a)
      (aggregate_products ties lf).
Proof.
  intros ties lf. unfold aggregate_products, aggregate_keyed.
  pose proof (sort_by_descending_sorted
                (fun kr : str * AggregateRecord => occurrence_count (snd kr))
                (map (fun kg => (fst kg, agg ties (snd kg))) (group_by lf)))
    as H.
  induction H as [|kr l Hl IH Hkr]; simpl.
  - constructor.
  - constructor; [exact IH|].
    rewrite Forall_forall in *. intros b Hb.
    apply in_map_iff in Hb. destruct Hb as [kr' [<- Hin]].
    apply Hkr, Hin.
Qed.

(** *** C9 *)

(** C9. When nothing exists at the input path, [load_lazy_data] raises
    [FileNotFoundError] without logging a scan or yielding a frame, and
    [main] ends with exit status 1: the only log record is the failure,
    and nothing is written. *)
Theorem main_missing_input :
  forall (ties : F64.RoundMode) (w : World) (args : Args),
    source_at w (arg_input args) = Missing ->
    load_lazy_data w (arg_input args)
      = ([], inl (FileNotFoundError (arg_input args)))
    /\ main ties w args
      = {| logged := [Error_failed (FileNotFoundError (arg_input args))];
           exit_status := 1;
           written := None |}
    /\ exit_status (main ties w args) <> 0.
Proof.
  intros ties w args Hmissing.
  assert (Hload : load_lazy_data w (arg_input args)
                  = ([], inl (FileNotFoundError (arg_input args)))).
  { unfold load_lazy_data. rewrite Hmissing. reflexivity. }
  assert (Hmain : main ties w args
      = {| logged := [Error_failed (FileNotFoundError (arg_input args))];
           exit_status := 1;
           written := None |}).
  { unfold main, run_pipeline, make_config; simpl.
    rewrite Hload. reflexivity. }
  split; [exact Hload|]. split; [exact Hmain|].
  rewrite Hmain. simpl. discriminate.
Qed.

Lemma main_missing_input_witness :
  source_at empty_world (arg_input sample_args) = Missing
  /\ exit_status (main F64.HalfToEven empty_world sample_args) <> 0.
Proof.
  split; [reflexivity|].
  apply (main_missing_input F64.HalfToEven empty_world sample_args).
  reflexivity.
Defined.

(** *** C10 *)

(** C10. Both stages keep every row, in order, and leave what they were
    given untouched: after [normalize_pricing] the source columns [id],
    [raw_name], [raw_price], [shop] and [date] of each row are those of
    the input row, and after [generate_fingerprints] so are they and the
    four price columns; each stage only adds its own columns. *)
Theorem stages_keep_source_columns :
  forall (ties : F64.RoundMode) (config : PipelineConfig)
         (lf : list RawRow) (priced_lf : list PricedRow),
    map raw (normalize_pricing ties lf config) = lf
    /\ map priced (generate_fingerprints priced_lf (synonyms config))
       = priced_lf
    /\ map (fun r => raw (priced r))
         (generate_fingerprints (normalize_pricing ties lf config)
            (synonyms config))
       = lf.
Proof.
  intros ties config lf priced_lf.
  assert (H1 : map raw (normalize_pricing ties lf config) = lf).
  { unfold normalize_pricing. rewrite map_map. simpl. apply map_id. }
  assert (H2 : forall l, map priced (generate_fingerprints l (synonyms config)) = l).
  { intro l. unfold generate_fingerprints. rewrite map_map. simpl.
    apply map_id. }
  split; [exact H1|]. split; [apply H2|].
  rewrite <- (map_map priced raw), H2. exact H1.
Qed.

(** *** C2 *)

Lemma filter_map_commute {A B} (f : B -> bool) (g : A -> B) (l : list A) :
  filter f (map g l) = map g (filter (fun a => f (g a)) l).
Proof.
  induction l as [|a l IH]; simpl; [reflexivity|].
  destruct (f (g a)); simpl; rewrite IH; reflexivity.
Qed.

Lemma keep_row_survives (config : PipelineConfig) (lf : list EnrichedRow)
    (r : EnrichedRow) :
  Null.is_true
    (keep_row config
       {| enriched := r; group_mean := mean_over_fingerprint lf r |})
  = survives config lf r.
Proof.
  unfold keep_row, survives; simpl.
  destruct (price_of r) as [p|]; simpl.
  - destruct (mean_over_fingerprint lf r) as [m|]; simpl;
      destruct (F64.ge p (min_price_eur config)); simpl;
      try destruct (F64.le p (F64.mul m (max_price_multiplier config)));
      simpl;
      destruct (1 <? Text.len_chars (fingerprint r))%nat; reflexivity.
  - destruct (mean_over_fingerprint lf r) as [m|]; simpl;
      destruct (1 <? Text.len_chars (fingerprint r))%nat; reflexivity.
Qed.

Lemma filter_anomalies_rows (config : PipelineConfig) (lf : list EnrichedRow) :
  filter_anomalies lf config
  = map (fun r => {| enriched := r;
                     group_mean := mean_over_fingerprint lf r |})
        (filter (survives config lf) lf).
Proof.
  unfold filter_anomalies, with_group_mean.
  rewrite filter_map_commute. f_equal.
  apply filter_ext. intro r. apply keep_row_survives.
Qed.

Lemma survives_priced (config : PipelineConfig) (lf : list EnrichedRow)
    (r : EnrichedRow) :
  survives config lf r = true -> price_of r <> None.
Proof.
  unfold survives. destruct (price_of r); [discriminate|discriminate].
Qed.

Lemma group_by_In (lf : list JudgedRow) (k : str) (g : list JudgedRow) :
  In (k, g) (group_by lf) ->
  g = filter (fun r => Text.eqb (key_of r) k) lf.
Proof.
  unfold group_by. intro H. apply in_map_iff in H.
  destruct H as [k' [Heq _]]. inversion Heq; subst. reflexivity.
Qed.

(** C2. The rows that leave the Anomaly Filter are exactly the rows of
    the incoming frame, in order, for which the price is non-null, is at
    least [min_price_eur], is at most the group mean of the row's
    fingerprint times [max_price_multiplier], and whose fingerprint is
    longer than one character; each carries that group mean. No group
    built from them holds a row with a null price, and the price text
    "invalid" normalises to a null price. *)
Theorem filter_anomalies_survivors :
  forall (ties : F64.RoundMode) (config : PipelineConfig)
         (lf : list EnrichedRow) (r : RawRow),
    map enriched (filter_anomalies lf config) = filter (survives config lf) lf
    /\ Forall (fun j => group_mean j = mean_over_fingerprint lf (enriched j))
         (filter_anomalies lf config)
    /\ Forall (fun kg => Forall (fun j => price_of (enriched j) <> None)
                           (snd kg))
         (group_by (filter_anomalies lf config))
    /\ price_final (normalize_row ties config (with_price r (utf8 "invalid")))
       = None.
Proof.
  intros ties config lf r.
  rewrite filter_anomalies_rows.
  split; [|split; [|split]].
  - rewrite map_map. simpl. apply map_id.
  - apply Forall_forall. intros j Hj. apply in_map_iff in Hj.
    destruct Hj as [e [<- _]]. reflexivity.
  - apply Forall_forall. intros [k g] Hkg. simpl.
    apply group_by_In in Hkg. subst g.
    apply Forall_forall. intros j Hj.
    apply filter_In in Hj. destruct Hj as [Hj _].
    apply in_map_iff in Hj. destruct Hj as [e [<- He]]. simpl.
    apply filter_In in He. destruct He as [_ He].
    eapply survives_priced, He.
  - destruct ties; vm_compute; reflexivity.
Qed.

(** *** C3 *)

Lemma mean_arithmetic (col : list (option f64)) :
  mean col = arithmetic_mean (drop_nulls col).
Proof.
  unfold mean, arithmetic_mean, F64.sum.
  destruct (drop_nulls col); reflexivity.
Qed.

(** C3. Every row that leaves the Anomaly Filter was tested against the
    arithmetic mean of the non-null prices of all rows of the incoming
    frame with its fingerprint. The mean is that of the frame before
    filtering: for the two listings priced 1 and 100 the surviving row
    carries 50.5, not the mean 100 of what survives. *)
Theorem group_mean_before_filtering :
  (forall (config : PipelineConfig) (lf : list EnrichedRow),
      Forall (fun j => group_mean j
                       = arithmetic_mean (priced_peers lf (key_of j)))
        (filter_anomalies lf config))
  /\ (let config := make_config [] [] (F64.of_decimal 110 2) in
      let out := filter_anomalies two_listings config in
      map (fun j => price_of (enriched j)) out = [Some (F64.of_Z 100)]
      /\ map group_mean out = [Some (F64.of_decimal 505 1)]
      /\ map (fun j => arithmetic_mean
                         (priced_peers (map enriched out) (key_of j))) out
         = [Some (F64.of_Z 100)]).
Proof.
  split.
  - intros config lf. rewrite filter_anomalies_rows.
    apply Forall_forall. intros j Hj. apply in_map_iff in Hj.
    destruct Hj as [e [<- _]]. simpl.
    unfold mean_over_fingerprint, priced_peers, key_of. simpl.
    apply mean_arithmetic.
  - vm_compute. repeat split; reflexivity.
Qed.

(** *** C6 *)

Section SortHead.
Variable A : Type.
Variable key : A -> nat.


End SortHead.

Lemma aggregate_keyed_In (ties : F64.RoundMode) (lf : list JudgedRow)
    (k : str) (rec : AggregateRecord) :
  In (k, rec) (aggregate_keyed ties lf) <->
  In k (distinct (map key_of lf))
  /\ rec = agg ties (filter (fun j => Text.eqb (key_of j) k) lf).
Proof.
  unfold aggregate_keyed, sort_by_descending, group_by.
  rewrite sort_In, map_map, in_map_iff. simpl. split.
  - intros [k' [Heq Hin]]. inversion Heq; subst. split; [exact Hin|reflexivity].
  - intros [Hin ->]. exists k. split; [reflexivity|exact Hin].
Qed.



(** *** C5 *)


Lemma is_prefix_split (p s : str) :
  Text.is_prefix p s = true -> s = p ++ skipn (List.length p) s.
Proof.
  revert s. induction p as [|x p IH]; intros s H; simpl in *.
  - reflexivity.
  - destruct s as [|y s]; [discriminate|].
    apply andb_true_iff in H. destruct H as [Hxy Hp].
    apply N.eqb_eq in Hxy. subst y. simpl. f_equal. apply IH, Hp.
Qed.







(** *** C8 *)


Lemma Text_eqb_eq (a b : str) : Text.eqb a b = true <-> a = b.
Proof.
  unfold Text.eqb. destruct (list_eq_dec N.eq_dec a b); split; intro H;
    congruence.
Qed.

Lemma Text_eqb_refl (a : str) : Text.eqb a a = true.
Proof. apply Text_eqb_eq. reflexivity. Qed.

Section SortPermutation.
Variable A : Type.
Variable le : A -> A -> bool.

Lemma insert_sorted_Permutation (x : A) (l : list A) :
  Permutation (insert_sorted le x l) (x :: l).
Proof.
  induction l as [|y l IH]; simpl.
  - apply Permutation_refl.
  - destruct (le x y).
    + apply Permutation_refl.
    + eapply Permutation_trans; [apply perm_skip, IH|apply perm_swap].
Qed.

Lemma sort_Permutation (l : list A) : Permutation (sort le l) l.
Proof.
  induction l as [|x l IH]; simpl.
  - apply Permutation_refl.
  - eapply Permutation_trans; [apply insert_sorted_Permutation|].
    apply perm_skip, IH.
Qed.

End SortPermutation.


Lemma distinct_In (k : str) (keys : list str) :
  In k (distinct keys) <-> In k keys.
Proof.
  induction keys as [|x keys IH]; simpl; [tauto|].
  rewrite filter_In, IH. split.
  - intros [H|[H _]]; [left|right]; assumption.
  - intros [H|H]; [left; exact H|].
    destruct (list_eq_dec N.eq_dec k x) as [->|Hne]; [left; reflexivity|].
    right. split; [exact H|].
    destruct (Text.eqb k x) eqn:He; [|reflexivity].
    apply Text_eqb_eq in He. contradiction.
Qed.

Lemma distinct_NoDup (keys : list str) : NoDup (distinct keys).
Proof.
  induction keys as [|x keys IH]; simpl; constructor.
  - intro H. apply filter_In in H. destruct H as [_ H].
    rewrite Text_eqb_refl in H. discriminate.
  - apply NoDup_filter, IH.
Qed.







Lemma aggregate_keyed_NoDup (ties : F64.RoundMode) (lf : list JudgedRow) :
  NoDup (map fst (aggregate_keyed ties lf)).
Proof.
  unfold aggregate_keyed, sort_by_descending.
  eapply Permutation_NoDup.
  - apply Permutation_map, Permutation_sym, sort_Permutation.
  - unfold group_by. rewrite !map_map. simpl. rewrite map_id.
    apply distinct_NoDup.
Qed.








(** *** The ordering example of the specification *)

(** The group of 20 comes first and the group of 1 last. *)
Lemma counted_feed_order :
  map (fun rec => (display_title rec, occurrence_count rec))
    (pipeline F64.HalfToEven test_config counted_feed)
  = [ (Some (utf8 "Sony TV"), 20);
      (Some (utf8 "Dell XPS 13"), 5);
      (Some (utf8 "Asus Monitor 24"), 1) ].
Proof. vm_compute. reflexivity. Qed.

(* ===================================================================== *)
(** ** Further properties of the stages *)
(* ===================================================================== *)

(** *** Price texts *)

Lemma replace_all_class_drop (keep : codepoint -> bool) (s : str) :
  Text.replace_all_class (fun c => negb (keep c)) [] s = filter keep s.
Proof.
  unfold Text.replace_all_class.
  induction s as [|c s IH]; simpl; [reflexivity|].
  destruct (keep c); simpl; rewrite IH; reflexivity.
Qed.

Lemma raw_float_parsed (ties : F64.RoundMode) (config : PipelineConfig)
    (r : RawRow) :
  raw_float (normalize_row ties config r) = parsed_price (raw_price r).
Proof. reflexivity. Qed.

(** What [normalize_row] makes of a row, from the two things it reads in
    the price text. *)
Lemma price_final_from_text (ties : F64.RoundMode) (config : PipelineConfig)
    (r : RawRow) :
  price_final (normalize_row ties config r)
  = option_map (F64.round ties 2)
      (Null.when_then_otherwise
         (Some (Text.contains_char dollar (raw_price r)))
         (Null.lift2 F64.div
            (Null.when_then_otherwise
               (Null.lift2 F64.gt (parsed_price (raw_price r))
                  (Some (price_scale_threshold config)))
               (Null.lift2 F64.div (parsed_price (raw_price r))
                  (Some (F64.of_Z 100)))
               (parsed_price (raw_price r)))
            (Some (usd_to_eur_rate config)))
         (Null.when_then_otherwise
            (Null.lift2 F64.gt (parsed_price (raw_price r))
               (Some (price_scale_threshold config)))
            (Null.lift2 F64.div (parsed_price (raw_price r))
               (Some (F64.of_Z 100)))
            (parsed_price (raw_price r)))).
Proof. reflexivity. Qed.

Lemma price_final_null (ties : F64.RoundMode) (config : PipelineConfig)
    (r : RawRow) :
  parsed_price (raw_price r) = None ->
  price_final (normalize_row ties config r) = None.
Proof.
  intro H. rewrite price_final_from_text, H. simpl.
  destruct (Text.contains_char dollar (raw_price r)); reflexivity.
Qed.

Lemma span_digits_spec (s ip rest : str) :
  span_digits s = (ip, rest) ->
  s = ip ++ rest
  /\ forallb Text.is_digit ip = true
  /\ match rest with
     | [] => True
     | c :: _ => Text.is_digit c = false
     end.
Proof.
  revert ip rest. induction s as [|c s IH]; intros ip rest H; simpl in H.
  - injection H as <- <-. repeat split.
  - destruct (Text.is_digit c) eqn:Hc.
    + destruct (span_digits s) as [ds rs] eqn:Hs.
      injection H as <- <-.
      destruct (IH ds rs eq_refl) as [-> [Hds Hrs]].
      simpl. rewrite Hc, Hds. repeat split. exact Hrs.
    + injection H as <- <-. simpl. repeat split. exact Hc.
Qed.

Lemma nondigits_of_digits (s : str) :
  forallb Text.is_digit s = true ->
  filter (fun c => negb (Text.is_digit c)) s = [].
Proof.
  induction s as [|c s IH]; simpl; [reflexivity|].
  intro H. apply andb_true_iff in H. destruct H as [Hc Hs].
  rewrite Hc. simpl. apply IH, Hs.
Qed.

(** The float parser accepts at most one character that is not a digit. *)
Lemma cast_float64_two_nondigits (t : str) :
  2 <= List.length (filter (fun c => negb (Text.is_digit c)) t) ->
  cast_float64 t = None.
Proof.
  intro H. unfold cast_float64.
  destruct (span_digits t) as [ip rest] eqn:Hspan.
  destruct (span_digits_spec _ Hspan) as [-> [Hip Hrest]].
  rewrite filter_app, (nondigits_of_digits _ Hip) in H. simpl in H.
  destruct rest as [|c frac]; [simpl in H; lia|].
  destruct ((c =? period)%N && forallb Text.is_digit frac
            && negb (is_nil ip && is_nil frac)) eqn:Hok; [|reflexivity].
  exfalso. apply andb_true_iff in Hok. destruct Hok as [Hok _].
  apply andb_true_iff in Hok. destruct Hok as [_ Hfrac].
  simpl in H. rewrite Hrest in H. simpl in H.
  rewrite (nondigits_of_digits _ Hfrac) in H. simpl in H. lia.
Qed.

Lemma cast_float64_no_digit (t : str) :
  existsb Text.is_digit t = false -> cast_float64 t = None.
Proof.
  intro H. unfold cast_float64.
  destruct t as [|c frac]; [reflexivity|].
  simpl in H. apply orb_false_iff in H. destruct H as [Hc Hfrac].
  simpl. rewrite Hc.
  destruct ((c =? period)%N) eqn:Hp; [|reflexivity]. simpl.
  destruct frac as [|d frac']; [reflexivity|].
  simpl in Hfrac. apply orb_false_iff in Hfrac. destruct Hfrac as [Hd _].
  simpl. rewrite Hd. reflexivity.
Qed.

Lemma parsed_price_cleaned (text : str) :
  parsed_price text = cast_float64 (cleaned_price text).
Proof.
  unfold parsed_price, cleaned_price. rewrite replace_all_class_drop.
  reflexivity.
Qed.

Lemma separator_not_digit (c : codepoint) :
  is_separator c = true -> Text.is_digit c = false.
Proof.
  unfold is_separator. intro H. apply orb_true_iff in H.
  destruct H as [H|H]; apply N.eqb_eq in H; subst c; reflexivity.
Qed.

Lemma is_price_char_split (c : codepoint) :
  is_price_char c = Text.is_digit c || is_separator c.
Proof. unfold is_price_char, is_separator. apply eq_sym, orb_assoc. Qed.

Lemma nondigits_of_price_chars (s : str) :
  filter (fun c => negb (Text.is_digit c)) (filter is_price_char s)
  = filter is_separator s.
Proof.
  induction s as [|c s IH]; simpl; [reflexivity|].
  rewrite is_price_char_split.
  destruct (is_separator c) eqn:Hs.
  - rewrite (separator_not_digit _ Hs). simpl.
    rewrite (separator_not_digit _ Hs). simpl. f_equal. exact IH.
  - rewrite orb_false_r. destruct (Text.is_digit c) eqn:Hd; simpl.
    + rewrite Hd. simpl. exact IH.
    + exact IH.
Qed.

Lemma nondigits_replace_first (t : str) :
  List.length (filter (fun c => negb (Text.is_digit c))
                 (Text.replace_first_char comma [period] t))
  = List.length (filter (fun c => negb (Text.is_digit c)) t).
Proof.
  induction t as [|c t IH]; simpl; [reflexivity|].
  destruct ((c =? comma)%N) eqn:Hc.
  - apply N.eqb_eq in Hc. subst c. reflexivity.
  - simpl. destruct (negb (Text.is_digit c)); simpl; rewrite IH; reflexivity.
Qed.

Lemma digits_replace_first (t : str) :
  existsb Text.is_digit (Text.replace_first_char comma [period] t)
  = existsb Text.is_digit t.
Proof.
  induction t as [|c t IH]; simpl; [reflexivity|].
  destruct ((c =? comma)%N) eqn:Hc.
  - apply N.eqb_eq in Hc. subst c. reflexivity.
  - simpl. rewrite IH. reflexivity.
Qed.

Lemma digits_filter_price (s : str) :
  existsb Text.is_digit (filter is_price_char s) = existsb Text.is_digit s.
Proof.
  induction s as [|c s IH]; simpl; [reflexivity|].
  rewrite is_price_char_split.
  destruct (Text.is_digit c) eqn:Hd; simpl.
  - rewrite Hd. reflexivity.
  - destruct (is_separator c); simpl; [rewrite Hd; simpl|]; exact IH.
Qed.

(** X1. A price text without any digit (the empty text, "invalid", a lone
    separator) gives a null [raw_float] and a null [price_final]. *)
Theorem price_without_digit_is_null :
  forall (ties : F64.RoundMode) (config : PipelineConfig) (r : RawRow),
    existsb Text.is_digit (raw_price r) = false ->
    raw_float (normalize_row ties config r) = None
    /\ price_final (normalize_row ties config r) = None.
Proof.
  intros ties config r H.
  assert (Hp : parsed_price (raw_price r) = None).
  { rewrite parsed_price_cleaned. apply cast_float64_no_digit.
    unfold cleaned_price. rewrite digits_replace_first, digits_filter_price.
    exact H. }
  split; [rewrite raw_float_parsed; exact Hp|].
  apply price_final_null, Hp.
Qed.

Lemma price_without_digit_is_null_witness :
  existsb Text.is_digit (raw_price (with_price blank_row (utf8 "$ n/a."))) = false
  /\ price_final (normalize_row F64.HalfToEven test_config
                    (with_price blank_row (utf8 "$ n/a."))) = None.
Proof.
  split; [reflexivity|].
  apply (@price_without_digit_is_null F64.HalfToEven test_config
           (with_price blank_row (utf8 "$ n/a."))).
  reflexivity.
Defined.

(** X2. A price text with two or more commas or periods in all, such as a
    price written with a thousands separator, gives a null [price_final]:
    only the first comma is turned into a decimal point, and the parser
    accepts a single separator. *)
Theorem price_with_two_separators_is_null :
  forall (ties : F64.RoundMode) (config : PipelineConfig) (r : RawRow),
    2 <= count_separators (raw_price r) ->
    raw_float (normalize_row ties config r) = None
    /\ price_final (normalize_row ties config r) = None.
Proof.
  intros ties config r H.
  assert (Hp : parsed_price (raw_price r) = None).
  { rewrite parsed_price_cleaned. apply cast_float64_two_nondigits.
    unfold cleaned_price.
    rewrite nondigits_replace_first, nondigits_of_price_chars. exact H. }
  split; [rewrite raw_float_parsed; exact Hp|].
  apply price_final_null, Hp.
Qed.

Lemma price_with_two_separators_is_null_witness :
  2 <= count_separators (raw_price (with_price blank_row (utf8 "1,234.56")))
  /\ price_final (normalize_row F64.HalfToEven test_config
                    (with_price blank_row (utf8 "1,234.56"))) = None.
Proof.
  split; [vm_compute; lia|].
  apply (@price_with_two_separators_is_null F64.HalfToEven test_config
           (with_price blank_row (utf8 "1,234.56"))).
  vm_compute. lia.
Defined.



Lemma filter_price_replace_first (s : str) :
  filter is_price_char (Text.replace_first_char comma [period] s)
  = Text.replace_first_char comma [period] (filter is_price_char s).
Proof.
  induction s as [|c s IH]; simpl; [reflexivity|].
  destruct ((c =? comma)%N) eqn:Hc.
  - apply N.eqb_eq in Hc. subst c. reflexivity.
  - simpl. destruct (is_price_char c); simpl; [rewrite Hc, IH|];
      congruence.
Qed.

Lemma replace_first_without (c : codepoint) (v t : str) :
  existsb (N.eqb c) t = false -> Text.replace_first_char c v t = t.
Proof.
  induction t as [|x t IH]; simpl; [reflexivity|].
  intro H. apply orb_false_iff in H. destruct H as [Hx Ht].
  rewrite N.eqb_sym, Hx. f_equal. apply IH, Ht.
Qed.

Lemma replace_first_twice (t : str) :
  cast_float64
    (Text.replace_first_char comma [period]
       (Text.replace_first_char comma [period] t))
  = cast_float64 (Text.replace_first_char comma [period] t).
Proof.
  destruct (existsb (N.eqb comma) (Text.replace_first_char comma [period] t))
    eqn:Hleft.
  - (* a comma is left: both texts hold two separators *)
    assert (Htwo : 2 <= List.length
                     (filter (fun c => negb (Text.is_digit c))
                        (Text.replace_first_char comma [period] t))).
    { clear - Hleft. induction t as [|c t IH]; [discriminate|].
      cbn [Text.replace_first_char] in *.
      destruct ((c =? comma)%N) eqn:Hc.
      - cbn [app] in *. apply existsb_exists in Hleft.
        destruct Hleft as [x [Hx Heq]]. apply N.eqb_eq in Heq. subst x.
        assert (Hin : In comma (filter (fun c => negb (Text.is_digit c)) t)).
        { apply filter_In. split; [|reflexivity].
          destruct Hx as [Hx|Hx]; [discriminate|exact Hx]. }
        change (filter (fun c => negb (Text.is_digit c)) (period :: t))
          with (period :: filter (fun c => negb (Text.is_digit c)) t).
        destruct (filter (fun c => negb (Text.is_digit c)) t);
          [destruct Hin|simpl; lia].
      - cbn [existsb] in Hleft. rewrite N.eqb_sym, Hc in Hleft.
        cbn [orb] in Hleft. specialize (IH Hleft). cbn [filter].
        destruct (negb (Text.is_digit c)); simpl; lia. }
    rewrite (cast_float64_two_nondigits _ Htwo).
    apply cast_float64_two_nondigits.
    rewrite nondigits_replace_first. exact Htwo.
  - rewrite (replace_first_without _ _ _ Hleft). reflexivity.
Qed.

Lemma contains_dollar_replace_first (s : str) :
  Text.contains_char dollar (Text.replace_first_char comma [period] s)
  = Text.contains_char dollar s.
Proof.
  unfold Text.contains_char.
  induction s as [|c s IH]; simpl; [reflexivity|].
  destruct ((c =? comma)%N) eqn:Hc.
  - apply N.eqb_eq in Hc. subst c. reflexivity.
  - simpl. rewrite IH. reflexivity.
Qed.

(** X4. The first comma of a price text counts as a decimal point:
    writing a period in its place changes nothing in [price_final]. *)
Theorem decimal_comma_reads_as_point :
  forall (ties : F64.RoundMode) (config : PipelineConfig) (r : RawRow),
    price_final
      (normalize_row ties config
         (with_price r
            (Text.replace_first_char comma [period] (raw_price r))))
    = price_final (normalize_row ties config r).
Proof.
  intros ties config r.
  rewrite !price_final_from_text. simpl raw_price.
  rewrite contains_dollar_replace_first.
  assert (Hp : parsed_price
                 (Text.replace_first_char comma [period] (raw_price r))
               = parsed_price (raw_price r)).
  { rewrite !parsed_price_cleaned. unfold cleaned_price.
    rewrite filter_price_replace_first. apply replace_first_twice. }
  rewrite Hp. reflexivity.
Qed.

(** *** Fingerprints *)

Lemma leb_refl (a : str) : Text.leb a a = true.
Proof.
  induction a as [|x a IH]; simpl; [reflexivity|].
  rewrite N.ltb_irrefl. exact IH.
Qed.

Lemma leb_total (a b : str) : Text.leb a b = false -> Text.leb b a = true.
Proof.
  revert b. induction a as [|x a IH]; intros [|y b] H; simpl in *;
    try discriminate; try reflexivity.
  destruct (N.ltb_spec x y) as [Hxy|Hxy]; [discriminate|].
  destruct (N.ltb_spec y x) as [Hyx|Hyx]; [reflexivity|].
  apply IH, H.
Qed.

Lemma leb_trans (a b c : str) :
  Text.leb a b = true -> Text.leb b c = true -> Text.leb a c = true.
Proof.
  revert b c. induction a as [|x a IH]; intros [|y b] [|z c] Hab Hbc;
    simpl in *; try discriminate; try reflexivity.
  destruct (N.ltb_spec x y) as [Hxy|Hxy].
  - destruct (N.ltb_spec y z) as [Hyz|Hyz].
    + destruct (N.ltb_spec x z); [reflexivity|lia].
    + destruct (N.ltb_spec z y); [discriminate|].
      destruct (N.ltb_spec x z); [reflexivity|lia].
  - destruct (N.ltb_spec y x); [discriminate|].
    destruct (N.ltb_spec y z) as [Hyz|Hyz].
    + destruct (N.ltb_spec x z); [reflexivity|lia].
    + destruct (N.ltb_spec z y); [discriminate|].
      destruct (N.ltb_spec x z); [lia|].
      destruct (N.ltb_spec z x); [lia|].
      eapply IH; eassumption.
Qed.

Lemma leb_antisym (a b : str) :
  Text.leb a b = true -> Text.leb b a = true -> a = b.
Proof.
  revert b. induction a as [|x a IH]; intros [|y b] Hab Hba; simpl in *;
    try discriminate; try reflexivity.
  destruct (N.ltb_spec x y) as [Hxy|Hxy].
  - destruct (N.ltb_spec y x); [lia|]. discriminate.
  - destruct (N.ltb_spec y x) as [Hyx|Hyx]; [discriminate|].
    assert (x = y) by lia. subst y. f_equal. apply IH; assumption.
Qed.

(** Sorting by a total order: the result is sorted, and it is the same
    for every arrangement of the same elements. *)
Section SortOrder.
Variable A : Type.
Variable le : A -> A -> bool.
Hypothesis le_total : forall a b, le a b = false -> le b a = true.
Hypothesis le_trans :
  forall a b c, le a b = true -> le b c = true -> le a c = true.
Hypothesis le_antisym : forall a b, le a b = true -> le b a = true -> a = b.

Lemma insert_sorted_ordered (x : A) (l : list A) :
  StronglySorted (fun a b => le a b = true) l ->
  StronglySorted (fun a b => le a b = true) (insert_sorted le x l).
Proof.
  induction 1 as [|y l Hl IH Hy]; simpl.
  - repeat constructor.
  - destruct (le x y) eqn:Hxy.
    + constructor; [constructor; assumption|].
      constructor; [exact Hxy|].
      eapply Forall_impl; [|exact Hy]. intros z Hz. simpl in Hz.
      eapply le_trans; eassumption.
    + constructor; [exact IH|].
      apply Forall_forall. intros z Hz.
      apply insert_sorted_In in Hz. destruct Hz as [->|Hz].
      * apply le_total, Hxy.
      * rewrite Forall_forall in Hy. apply Hy, Hz.
Qed.

Lemma sort_ordered (l : list A) :
  StronglySorted (fun a b => le a b = true) (sort le l).
Proof.
  induction l as [|x l IH]; simpl; [constructor|].
  apply insert_sorted_ordered, IH.
Qed.

Lemma le_reflexive (a : A) : le a a = true.
Proof.
  destruct (le a a) eqn:H; [reflexivity|].
  pose proof (le_total H) as H'. congruence.
Qed.

Lemma ordered_unique (l l' : list A) :
  StronglySorted (fun a b => le a b = true) l ->
  StronglySorted (fun a b => le a b = true) l' ->
  Permutation l l' -> l = l'.
Proof.
  intro Hl. revert l'. induction Hl as [|x l Hl IH Hx]; intros l' Hl' Hp.
  - apply Permutation_nil in Hp. subst. reflexivity.
  - destruct Hl' as [|y l' Hl' Hy].
    + apply Permutation_sym, Permutation_nil in Hp. discriminate.
    + assert (Hxy : le x y = true).
      { assert (Hin : In y (x :: l))
          by (eapply Permutation_in; [apply Permutation_sym, Hp|left; reflexivity]).
        destruct Hin as [->|Hin]; [apply le_reflexive|].
        rewrite Forall_forall in Hx. apply Hx, Hin. }
      assert (Hyx : le y x = true).
      { assert (Hin : In x (y :: l'))
          by (eapply Permutation_in; [exact Hp|left; reflexivity]).
        destruct Hin as [->|Hin]; [apply le_reflexive|].
        rewrite Forall_forall in Hy. apply Hy, Hin. }
      assert (x = y) by (apply le_antisym; assumption). subst y.
      f_equal. apply IH; [exact Hl'|].
      eapply Permutation_cons_inv, Hp.
Qed.

Lemma sort_canonical (l l' : list A) :
  Permutation l l' -> sort le l = sort le l'.
Proof.
  intro Hp. apply ordered_unique; try apply sort_ordered.
  eapply Permutation_trans; [apply sort_Permutation|].
  eapply Permutation_trans; [exact Hp|].
  apply Permutation_sym, sort_Permutation.
Qed.

End SortOrder.

Lemma fingerprint_of_tokens (synonyms : list (str * str)) (name : str) :
  fingerprint_of synonyms name
  = Text.join [space] (sort Text.leb (clean_tokens synonyms name)).
Proof. reflexivity. Qed.

Lemma split_go_chars (P : codepoint -> Prop) (sep : codepoint)
    (s cur : str) :
  Forall P s -> Forall P cur -> Forall (Forall P) (Text.split_go sep cur s).
Proof.
  intro Hs. revert cur. induction Hs as [|c s Hc Hs IH]; intros cur Hcur;
    simpl.
  - constructor; [apply Forall_rev, Hcur|constructor].
  - destruct ((c =? sep)%N).
    + constructor; [apply Forall_rev, Hcur|]. apply IH. constructor.
    + apply IH. constructor; assumption.
Qed.

Lemma split_go_no_separator (sep : codepoint) (s cur : str) :
  Forall (fun c => c <> sep) cur ->
  Forall (Forall (fun c => c <> sep)) (Text.split_go sep cur s).
Proof.
  revert cur. induction s as [|c s IH]; intros cur Hcur; simpl.
  - constructor; [apply Forall_rev, Hcur|constructor].
  - destruct ((c =? sep)%N) eqn:Hc.
    + constructor; [apply Forall_rev, Hcur|]. apply IH. constructor.
    + apply IH. constructor; [|exact Hcur].
      apply N.eqb_neq, Hc.
Qed.

Lemma split_go_nonempty (sep : codepoint) (s cur : str) :
  Text.split_go sep cur s <> [].
Proof.
  revert cur. induction s as [|c s IH]; intro cur; simpl; [discriminate|].
  destruct ((c =? sep)%N); [discriminate|apply IH].
Qed.

Lemma split_go_token (sep : codepoint) (t rest cur : str) :
  Forall (fun c => c <> sep) t ->
  Text.split_go sep cur (t ++ rest) = Text.split_go sep (rev t ++ cur) rest.
Proof.
  intro Ht. revert cur. induction Ht as [|c t Hc Ht IH]; intro cur; simpl.
  - reflexivity.
  - apply N.eqb_neq in Hc. rewrite Hc. rewrite IH.
    rewrite <- app_assoc. reflexivity.
Qed.

(** Splitting what [join] made gives the tokens back. *)
Lemma split_join (sep : codepoint) (toks : list str) :
  toks <> [] ->
  Forall (Forall (fun c => c <> sep)) toks ->
  Text.split sep (Text.join [sep] toks) = toks.
Proof.
  unfold Text.split. intros Hne Hall.
  assert (Hgen : forall t ts cur,
             Forall (fun c => c <> sep) t ->
             Forall (Forall (fun c => c <> sep)) ts ->
             Text.split_go sep cur (Text.join [sep] (t :: ts))
             = (rev cur ++ t) :: ts).
  { intros t ts. revert t. induction ts as [|t2 ts IH]; intros t cur Ht Hts.
    - simpl. rewrite <- (app_nil_r t) at 1.
      rewrite (split_go_token _ _ Ht). simpl.
      rewrite rev_app_distr, rev_involutive. reflexivity.
    - change (Text.join [sep] (t :: t2 :: ts))
        with (t ++ [sep] ++ Text.join [sep] (t2 :: ts)).
      rewrite (split_go_token _ _ Ht).
      change ([sep] ++ Text.join [sep] (t2 :: ts))
        with (sep :: Text.join [sep] (t2 :: ts)).
      cbn [Text.split_go]. rewrite N.eqb_refl.
      rewrite rev_app_distr, rev_involutive. f_equal.
      inversion Hts; subst.
      rewrite (IH t2 [] H1 H2). reflexivity. }
  destruct toks as [|t ts]; [congruence|].
  inversion Hall; subst. exact (Hgen t ts [] H1 H2).
Qed.

Lemma join_chars (P : codepoint -> Prop) (sep : codepoint)
    (toks : list str) :
  P sep -> Forall (Forall P) toks -> Forall P (Text.join [sep] toks).
Proof.
  intros Hsep Hall. induction Hall as [|t ts Ht Hts IH]; [constructor|].
  destruct ts as [|t2 ts]; [exact Ht|].
  change (Text.join [sep] (t :: t2 :: ts))
    with (t ++ [sep] ++ Text.join [sep] (t2 :: ts)).
  apply Forall_app. split; [exact Ht|].
  apply Forall_app. split; [repeat constructor; exact Hsep|exact IH].
Qed.

Lemma strip_start_chars (P : codepoint -> Prop) (s : str) :
  Forall P s -> Forall P (Text.strip_start s).
Proof.
  induction 1 as [|c s Hc Hs IH]; simpl; [constructor|].
  destruct (Text.is_space c); [exact IH|constructor; assumption].
Qed.

Lemma strip_chars_chars (P : codepoint -> Prop) (s : str) :
  Forall P s -> Forall P (Text.strip_chars s).
Proof.
  intro H. unfold Text.strip_chars.
  apply Forall_rev, strip_start_chars, Forall_rev, strip_start_chars, H.
Qed.

Lemma replace_all_class_chars (s : str) :
  Forall (fun c => is_fingerprint_char c = true)
    (Text.replace_all_class (fun c => negb (is_fingerprint_char c))
       [space] s).
Proof.
  unfold Text.replace_all_class.
  induction s as [|c s IH]; simpl; [constructor|].
  destruct (is_fingerprint_char c) eqn:Hc; simpl.
  - constructor; assumption.
  - constructor; [reflexivity|exact IH].
Qed.

Lemma replace_all_runs_chars (s : str) (in_run : bool) :
  Forall (fun c => is_fingerprint_char c = true) s ->
  Forall fingerprint_alphabet
    (Text.replace_all_runs Text.is_space [space] in_run s).
Proof.
  intro H. revert in_run.
  induction H as [|c s Hc Hs IH]; intro in_run; simpl; [constructor|].
  destruct (Text.is_space c) eqn:Hsp.
  - destruct in_run; [apply IH|].
    simpl. constructor; [right; reflexivity|apply IH].
  - constructor; [|apply IH].
    left. unfold is_fingerprint_char in Hc. rewrite Hsp in Hc.
    rewrite orb_false_r in Hc. exact Hc.
Qed.

Lemma clean_tokens_chars (synonyms : list (str * str)) (name : str) :
  Forall (Forall (fun c => is_token_char c = true))
    (clean_tokens synonyms name).
Proof.
  unfold clean_tokens.
  set (s := Text.strip_chars _).
  assert (Hs : Forall fingerprint_alphabet s).
  { apply strip_chars_chars, replace_all_runs_chars, replace_all_class_chars. }
  pose proof (split_go_chars space Hs (Forall_nil _)) as Halpha.
  pose proof (@split_go_no_separator space s [] (Forall_nil _)) as Hnosep.
  unfold Text.split.
  rewrite Forall_forall in *. intros t Ht.
  specialize (Halpha t Ht). specialize (Hnosep t Ht).
  rewrite Forall_forall in *. intros c Hc.
  destruct (Halpha c Hc) as [H|H]; [exact H|].
  exfalso. apply (Hnosep c Hc), H.
Qed.

Lemma token_char_not_space (c : codepoint) :
  is_token_char c = true -> c <> space.
Proof. intros H ->. discriminate. Qed.

(** X5. A fingerprint is in canonical form: split at its spaces it gives
    tokens in ascending lexicographic order, every token is made of
    lower-case letters a-z and digits only, and so the fingerprint holds
    nothing but such characters and single spaces. *)
Theorem fingerprint_canonical_form :
  forall (synonyms : list (str * str)) (name : str),
    StronglySorted (fun a b => Text.leb a b = true)
      (Text.split space (fingerprint_of synonyms name))
    /\ Forall (Forall (fun c => is_token_char c = true))
         (Text.split space (fingerprint_of synonyms name))
    /\ Forall fingerprint_alphabet (fingerprint_of synonyms name).
Proof.
  intros synonyms name. rewrite fingerprint_of_tokens.
  set (toks := sort Text.leb (clean_tokens synonyms name)).
  assert (Hchars : Forall (Forall (fun c => is_token_char c = true)) toks).
  { apply Forall_forall. intros t Ht. apply sort_In in Ht.
    pose proof (clean_tokens_chars synonyms name) as H.
    rewrite Forall_forall in H. apply H, Ht. }
  assert (Hne : toks <> []).
  { intro Hnil.
    assert (Hp := sort_Permutation Text.leb (clean_tokens synonyms name)).
    fold toks in Hp. rewrite Hnil in Hp. apply Permutation_nil in Hp.
    unfold clean_tokens, Text.split in Hp.
    eapply split_go_nonempty, Hp. }
  assert (Hnosep : Forall (Forall (fun c => c <> space)) toks).
  { eapply Forall_impl; [|exact Hchars]. intros t Ht.
    eapply Forall_impl; [|exact Ht]. apply token_char_not_space. }
  rewrite (split_join Hne Hnosep).
  split; [|split].
  - apply sort_ordered; [apply leb_total|apply leb_trans].
  - exact Hchars.
  - apply join_chars; [right; reflexivity|].
    eapply Forall_impl; [|exact Hchars]. intros t Ht.
    eapply Forall_impl; [|exact Ht]. intros c Hc. left. exact Hc.
Qed.

(** X6. The order of the words of a name does not reach the fingerprint:
    two names whose cleaned token lists are arrangements of the same
    tokens get the same fingerprint. *)
Theorem fingerprint_ignores_token_order :
  forall (synonyms : list (str * str)) (name1 name2 : str),
    Permutation (clean_tokens synonyms name1) (clean_tokens synonyms name2) ->
    fingerprint_of synonyms name1 = fingerprint_of synonyms name2.
Proof.
  intros synonyms name1 name2 Hp. rewrite !fingerprint_of_tokens.
  f_equal.
  apply (@sort_canonical _ Text.leb leb_total leb_trans leb_antisym _ _ Hp).
Qed.

Lemma fingerprint_ignores_token_order_witness :
  fingerprint_of default_synonyms (utf8 "Sony Galaxy-Tab 4K")
  = fingerprint_of default_synonyms (utf8 "4k tab, GALAXY sony").
Proof.
  apply fingerprint_ignores_token_order.
  assert (H1 : clean_tokens default_synonyms (utf8 "Sony Galaxy-Tab 4K")
               = [utf8 "sony"; utf8 "galaxy"; utf8 "tab"; utf8 "4k"])
    by (vm_compute; reflexivity).
  assert (H2 : clean_tokens default_synonyms (utf8 "4k tab, GALAXY sony")
               = [utf8 "4k"; utf8 "tab"; utf8 "galaxy"; utf8 "sony"])
    by (vm_compute; reflexivity).
  rewrite H1, H2.
  change [utf8 "4k"; utf8 "tab"; utf8 "galaxy"; utf8 "sony"]
    with (rev [utf8 "sony"; utf8 "galaxy"; utf8 "tab"; utf8 "4k"]).
  apply Permutation_rev.
Defined.

Lemma lower_char_idempotent (c : codepoint) :
  Text.lower_char (Text.lower_char c) = Text.lower_char c.
Proof.
  unfold Text.lower_char, Text.is_upper_az, Text.in_range.
  destruct (((65 <=? c)%N && (c <=? 90)%N)
            || ((192 <=? c)%N && (c <=? 222)%N && negb (c =? 215)%N)) eqn:H;
    [|rewrite H; reflexivity].
  assert (Hc : (65 <= c <= 90 \/ 192 <= c <= 222)%N).
  { apply orb_true_iff in H. destruct H as [H|H].
    - apply andb_true_iff in H. destruct H as [H1 H2].
      apply N.leb_le in H1, H2. left. lia.
    - apply andb_true_iff in H. destruct H as [H _].
      apply andb_true_iff in H. destruct H as [H1 H2].
      apply N.leb_le in H1, H2. right. lia. }
  replace (((65 <=? c + 32)%N && (c + 32 <=? 90)%N)
           || ((192 <=? c + 32)%N && (c + 32 <=? 222)%N
               && negb (c + 32 =? 215)%N)) with false; [reflexivity|].
  symmetry. apply orb_false_iff. split.
  - apply andb_false_iff. right. apply N.leb_gt. lia.
  - apply andb_false_iff. left. apply andb_false_iff.
    destruct Hc as [Hc|Hc]; [left|right]; apply N.leb_gt; lia.
Qed.

(** X7. Letter case does not reach the fingerprint: a name and its
    lower-cased form get the same fingerprint, and so do any two names
    that are equal once lower-cased. *)
Theorem fingerprint_ignores_case :
  forall (synonyms : list (str * str)) (name : str),
    fingerprint_of synonyms (Text.to_lowercase name)
    = fingerprint_of synonyms name.
Proof.
  intros synonyms name. unfold fingerprint_of.
  replace (Text.to_lowercase (Text.to_lowercase name))
    with (Text.to_lowercase name); [reflexivity|].
  unfold Text.to_lowercase. rewrite map_map. apply map_ext.
  intro c. symmetry. apply lower_char_idempotent.
Qed.







(** *** The Anomaly Filter *)

Lemma filter_filter_commute {A} (f g : A -> bool) (l : list A) :
  filter f (filter g l) = filter g (filter f l).
Proof.
  induction l as [|x l IH]; simpl; [reflexivity|].
  destruct (f x) eqn:Hf, (g x) eqn:Hg; simpl; rewrite ?Hf, ?Hg, IH;
    reflexivity.
Qed.

Lemma filter_absorb {A} (f g : A -> bool) (l : list A) :
  (forall x, f x = true -> g x = true) ->
  filter f (filter g l) = filter f l.
Proof.
  intro H. induction l as [|x l IH]; simpl; [reflexivity|].
  destruct (g x) eqn:Hg; simpl.
  - rewrite IH. reflexivity.
  - destruct (f x) eqn:Hf; [|exact IH].
    rewrite (H x Hf) in Hg. discriminate.
Qed.

Lemma peers_without_nulls (lf : list EnrichedRow) (key : str) :
  drop_nulls (map price_of (filter (same_fingerprint key)
                              (filter has_price lf)))
  = drop_nulls (map price_of (filter (same_fingerprint key) lf)).
Proof.
  induction lf as [|r lf IH]; simpl; [reflexivity|].
  unfold has_price at 1.
  destruct (price_of r) as [p|] eqn:Hp; simpl.
  - destruct (same_fingerprint key r); simpl; rewrite ?Hp, IH; reflexivity.
  - destruct (same_fingerprint key r); simpl; rewrite ?Hp; exact IH.
Qed.

Lemma mean_over_without_nulls (lf : list EnrichedRow) (r : EnrichedRow) :
  mean_over_fingerprint (filter has_price lf) r = mean_over_fingerprint lf r.
Proof.
  unfold mean_over_fingerprint, mean. rewrite peers_without_nulls.
  reflexivity.
Qed.

(** X9. Rows with a null price take no part in the Anomaly Filter: taking
    them out of the frame beforehand gives the same surviving rows with
    the same group means. *)
Theorem filter_anomalies_ignores_null_prices :
  forall (config : PipelineConfig) (lf : list EnrichedRow),
    filter_anomalies (filter has_price lf) config
    = filter_anomalies lf config.
Proof.
  intros config lf. rewrite !filter_anomalies_rows.
  assert (Hsurv : forall r, survives config (filter has_price lf) r
                            = survives config lf r).
  { intro r. unfold survives. rewrite mean_over_without_nulls.
    reflexivity. }
  rewrite (filter_ext _ _ Hsurv).
  rewrite filter_absorb.
  - apply map_ext. intro r. rewrite mean_over_without_nulls. reflexivity.
  - intros r Hr. unfold survives in Hr. unfold has_price.
    destruct (price_of r); [reflexivity|discriminate].
Qed.

Lemma same_fingerprint_twice (lf : list EnrichedRow) (k : str)
    (r : EnrichedRow) :
  fingerprint r = k ->
  filter (same_fingerprint (fingerprint r)) (filter (same_fingerprint k) lf)
  = filter (same_fingerprint (fingerprint r)) lf.
Proof.
  intros ->. apply filter_absorb. auto.
Qed.

(** X10. The Anomaly Filter judges every fingerprint group on its own:
    the survivors with fingerprint [k] are what the filter keeps of the
    rows with fingerprint [k] alone, whatever else the frame holds. *)
Theorem filter_anomalies_by_group :
  forall (config : PipelineConfig) (lf : list EnrichedRow) (k : str),
    filter (fun j => Text.eqb (key_of j) k) (filter_anomalies lf config)
    = filter_anomalies (filter (same_fingerprint k) lf) config.
Proof.
  intros config lf k. rewrite !filter_anomalies_rows.
  rewrite filter_map_commute.
  change (fun a : EnrichedRow =>
            Text.eqb
              (key_of {| enriched := a;
                         group_mean := mean_over_fingerprint lf a |}) k)
    with (same_fingerprint k).
  rewrite filter_filter_commute.
  assert (Hmean : forall r, In r (filter (same_fingerprint k) lf) ->
            mean_over_fingerprint (filter (same_fingerprint k) lf) r
            = mean_over_fingerprint lf r).
  { intros r Hr. apply filter_In in Hr. destruct Hr as [_ Hk].
    apply Text_eqb_eq in Hk. unfold mean_over_fingerprint.
    rewrite (@same_fingerprint_twice lf k r Hk). reflexivity. }
  rewrite (filter_ext_in (survives config (filter (same_fingerprint k) lf))
             (survives config lf)).
  - apply map_ext_in. intros r Hr. apply filter_In in Hr.
    destruct Hr as [Hr _]. rewrite (Hmean r Hr). reflexivity.
  - intros r Hr. unfold survives. rewrite (Hmean r Hr). reflexivity.
Qed.

(** *** The Aggregator *)

Lemma list_sum_Permutation (l l' : list nat) :
  Permutation l l' -> list_sum l = list_sum l'.
Proof.
  induction 1; simpl; lia.
Qed.

Lemma list_sum_map_add {A} (f g : A -> nat) (l : list A) :
  list_sum (map (fun x => f x + g x) l)
  = list_sum (map f l) + list_sum (map g l).
Proof.
  induction l as [|x l IH]; simpl; [reflexivity|]. rewrite IH. lia.
Qed.

Lemma sum_indicator_absent (x : str) (ks : list str) :
  ~ In x ks ->
  list_sum (map (fun k => if Text.eqb x k then 1 else 0) ks) = 0.
Proof.
  induction ks as [|k ks IH]; simpl; [reflexivity|].
  intro H. destruct (Text.eqb x k) eqn:He.
  - apply Text_eqb_eq in He. exfalso. apply H. left. congruence.
  - apply IH. intro Hin. apply H. right. exact Hin.
Qed.

Lemma sum_indicator_present (x : str) (ks : list str) :
  NoDup ks -> In x ks ->
  list_sum (map (fun k => if Text.eqb x k then 1 else 0) ks) = 1.
Proof.
  induction 1 as [|k ks Hk Hnd IH]; intro Hin; [destruct Hin|].
  simpl. destruct Hin as [->|Hin].
  - rewrite Text_eqb_refl, (@sum_indicator_absent _ _ Hk). reflexivity.
  - destruct (Text.eqb x k) eqn:He.
    + apply Text_eqb_eq in He. subst k. contradiction.
    + apply IH, Hin.
Qed.

(** Counting the rows key by key over distinct keys that cover the frame
    counts every row once. *)
Lemma count_by_keys (lf : list JudgedRow) (ks : list str) :
  NoDup ks -> (forall j, In j lf -> In (key_of j) ks) ->
  list_sum (map (count_key lf) ks) = List.length lf.
Proof.
  intros Hnd. induction lf as [|j lf IH]; intro Hcover.
  - unfold count_key. simpl. clear Hnd Hcover.
    induction ks as [|k ks IH]; simpl; [reflexivity|exact IH].
  - assert (Hstep : forall k,
              count_key (j :: lf) k
              = (if Text.eqb (key_of j) k then 1 else 0) + count_key lf k).
    { intro k. unfold count_key. simpl.
      destruct (Text.eqb (key_of j) k); reflexivity. }
    rewrite (map_ext _ _ Hstep), list_sum_map_add.
    rewrite (@sum_indicator_present _ _ Hnd);
      [|apply Hcover; left; reflexivity].
    rewrite IH; [reflexivity|].
    intros j' Hj'. apply Hcover. right. exact Hj'.
Qed.

Lemma aggregate_keyed_Permutation (ties : F64.RoundMode)
    (lf : list JudgedRow) :
  Permutation (aggregate_keyed ties lf)
    (map (fun k => (k, agg ties (filter (fun j => Text.eqb (key_of j) k) lf)))
       (distinct (map key_of lf))).
Proof.
  unfold aggregate_keyed, sort_by_descending, group_by.
  rewrite map_map. simpl. apply sort_Permutation.
Qed.

(** X11. Aggregation loses and invents no row: the occurrence counts of
    the emitted records add up to the number of rows of the frame. *)
Theorem aggregate_products_counts_every_row :
  forall (ties : F64.RoundMode) (lf : list JudgedRow),
    list_sum (map occurrence_count (aggregate_products ties lf))
    = List.length lf.
Proof.
  intros ties lf. unfold aggregate_products. rewrite map_map.
  rewrite (list_sum_Permutation
             (Permutation_map (fun kr => occurrence_count (snd kr))
                (aggregate_keyed_Permutation ties lf))).
  rewrite map_map. simpl.
  apply (@count_by_keys lf _ (distinct_NoDup (map key_of lf))).
  intros j Hj. apply distinct_In, in_map, Hj.
Qed.

(** X12. There is one record for each distinct fingerprint of the frame
    and none besides, and the record of a fingerprint counts the rows
    that carry it. *)
Theorem aggregate_products_one_record_per_fingerprint :
  forall (ties : F64.RoundMode) (lf : list JudgedRow),
    NoDup (map fst (aggregate_keyed ties lf))
    /\ (forall k, In k (map fst (aggregate_keyed ties lf))
                  <-> exists j, In j lf /\ key_of j = k)
    /\ List.length (aggregate_products ties lf)
       = List.length (distinct (map key_of lf))
    /\ Forall (fun kr => occurrence_count (snd kr) = count_key lf (fst kr)
                         /\ 1 <= occurrence_count (snd kr))
         (aggregate_keyed ties lf).
Proof.
  intros ties lf.
  pose proof (aggregate_keyed_Permutation ties lf) as Hp.
  split; [apply aggregate_keyed_NoDup|]. split; [|split].
  - intro k. rewrite in_map_iff. split.
    + intros [[k' rec] [<- Hin]]. simpl.
      apply aggregate_keyed_In in Hin. destruct Hin as [Hk _].
      apply distinct_In, in_map_iff in Hk.
      destruct Hk as [j [Hkey Hj]]. exists j. split; assumption.
    + intros [j [Hj Hkey]].
      exists (k, agg ties (filter (fun j => Text.eqb (key_of j) k) lf)).
      split; [reflexivity|]. apply aggregate_keyed_In.
      split; [|reflexivity]. apply distinct_In. rewrite <- Hkey.
      apply in_map, Hj.
  - unfold aggregate_products. rewrite length_map.
    rewrite (Permutation_length Hp), length_map. reflexivity.
  - apply Forall_forall. intros [k rec] Hin. simpl.
    apply aggregate_keyed_In in Hin. destruct Hin as [Hk ->]. simpl.
    split; [reflexivity|].
    apply distinct_In, in_map_iff in Hk. destruct Hk as [j [Hkey Hj]].
    assert (Hjg : In j (filter (fun j => Text.eqb (key_of j) k) lf)).
    { apply filter_In. split; [exact Hj|]. apply Text_eqb_eq, Hkey. }
    destruct (filter (fun j => Text.eqb (key_of j) k) lf);
      [destruct Hjg|simpl; lia].
Qed.

Lemma mean_of_priced (col : list (option f64)) :
  col <> [] -> Forall (fun p => p <> None) col -> mean col <> None.
Proof.
  intros Hne Hall. unfold mean.
  destruct col as [|p col]; [congruence|].
  inversion Hall; subst. destruct p as [p|]; [|congruence].
  simpl. discriminate.
Qed.

Lemma sort_nonempty {A} (le : A -> A -> bool) (l : list A) :
  l <> [] -> hd_error (sort le l) <> None.
Proof.
  intros Hne H.
  assert (Hp := sort_Permutation le l).
  destruct (sort le l); [|discriminate].
  apply Permutation_nil in Hp. contradiction.
Qed.

(** X13. The result of the pipeline holds no null: every record has a
    title, an average price and an occurrence count of at least one. *)
Theorem pipeline_records_complete :
  forall (ties : F64.RoundMode) (config : PipelineConfig)
         (rows : list RawRow),
    Forall (fun rec => display_title rec <> None
                       /\ avg_price rec <> None
                       /\ 1 <= occurrence_count rec)
      (pipeline ties config rows).
Proof.
  intros ties config rows. unfold pipeline, aggregate_products.
  apply Forall_forall. intros rec Hrec. apply in_map_iff in Hrec.
  destruct Hrec as [[k rec'] [<- Hin]]. simpl.
  apply aggregate_keyed_In in Hin. destruct Hin as [Hk ->].
  set (g := filter (fun j => Text.eqb (key_of j) k)
              (run_stages ties config rows)).
  assert (Hne : g <> []).
  { apply distinct_In, in_map_iff in Hk. destruct Hk as [j [Hkey Hj]].
    assert (Hjg : In j g).
    { apply filter_In. split; [exact Hj|]. apply Text_eqb_eq, Hkey. }
    intro Hnil. rewrite Hnil in Hjg. exact Hjg. }
  assert (Hpriced : Forall (fun p => p <> None)
                      (map (fun r => price_of (enriched r)) g)).
  { apply Forall_forall. intros p Hp. apply in_map_iff in Hp.
    destruct Hp as [j [<- Hj]]. apply filter_In in Hj.
    destruct Hj as [Hj _]. unfold run_stages in Hj.
    rewrite filter_anomalies_rows in Hj. apply in_map_iff in Hj.
    destruct Hj as [e [<- He]]. simpl. apply filter_In in He.
    destruct He as [_ He]. eapply survives_priced, He. }
  unfold agg; simpl. split; [|split].
  - unfold sort_by_descending. apply sort_nonempty.
    intro Hnil. apply map_eq_nil in Hnil. contradiction.
  - destruct (mean (map (fun r => price_of (enriched r)) g)) eqn:Hm;
      [discriminate|].
    exfalso. revert Hm. apply mean_of_priced; [|exact Hpriced].
    intro Hnil. apply map_eq_nil in Hnil. contradiction.
  - destruct g; [congruence|simpl; lia].
Qed.

Lemma distinct_Permutation (ks ks' : list str) :
  Permutation ks ks' -> Permutation (distinct ks) (distinct ks').
Proof.
  intro Hp. apply NoDup_Permutation; try apply distinct_NoDup.
  intro k. rewrite !distinct_In. split; intro H.
  - eapply Permutation_in; eassumption.
  - eapply Permutation_in; [apply Permutation_sym|]; eassumption.
Qed.

Lemma filter_Permutation {A} (f : A -> bool) (l l' : list A) :
  Permutation l l' -> Permutation (filter f l) (filter f l').
Proof.
  induction 1 as [|x l l' Hp IH|x y l|l l' l'' H1 IH1 H2 IH2]; simpl.
  - constructor.
  - destruct (f x); [constructor|]; exact IH.
  - destruct (f x), (f y); try apply Permutation_refl. apply perm_swap.
  - eapply Permutation_trans; eassumption.
Qed.

(** X14. The order of the rows of the frame decides neither which
    fingerprints get a record nor their occurrence counts: two frames
    holding the same rows give the same fingerprint-count pairs. *)
Theorem aggregate_counts_ignore_row_order :
  forall (ties : F64.RoundMode) (lf lf' : list JudgedRow),
    Permutation lf lf' ->
    Permutation
      (map (fun kr => (fst kr, occurrence_count (snd kr)))
         (aggregate_keyed ties lf))
      (map (fun kr => (fst kr, occurrence_count (snd kr)))
         (aggregate_keyed ties lf')).
Proof.
  intros ties lf lf' Hp.
  assert (Hshape : forall l,
            Permutation
              (map (fun kr => (fst kr, occurrence_count (snd kr)))
                 (aggregate_keyed ties l))
              (map (fun k => (k, count_key l k)) (distinct (map key_of l)))).
  { intro l.
    eapply Permutation_trans;
      [apply Permutation_map, aggregate_keyed_Permutation|].
    rewrite map_map. apply Permutation_refl. }
  eapply Permutation_trans; [apply Hshape|].
  eapply Permutation_trans; [|apply Permutation_sym, Hshape].
  assert (Hcount : forall k, count_key lf k = count_key lf' k).
  { intro k. unfold count_key. apply Permutation_length, filter_Permutation, Hp. }
  rewrite (map_ext _ (fun k => (k, count_key lf' k)));
    [|intro k; rewrite Hcount; reflexivity].
  apply Permutation_map, distinct_Permutation, Permutation_map, Hp.
Qed.

Lemma aggregate_counts_ignore_row_order_witness :
  Permutation
    (map (fun kr => (fst kr, occurrence_count (snd kr)))
       (aggregate_keyed F64.HalfToEven three_listings))
    (map (fun kr => (fst kr, occurrence_count (snd kr)))
       (aggregate_keyed F64.HalfToEven (rev three_listings))).
Proof.
  apply aggregate_counts_ignore_row_order. apply Permutation_rev.
Defined.

(** *** The entry point *)




(** *** Noise words *)

Lemma word_boundary_inside (a b : codepoint) :
  word_boundary (Some a) (Some b) = xorb (Text.is_word a) (Text.is_word b).
Proof. reflexivity. Qed.

Lemma word_boundary_start (b : codepoint) :
  word_boundary None (Some b) = Text.is_word b.
Proof. unfold word_boundary. apply xorb_false_l. Qed.

Lemma word_boundary_end (a : codepoint) :
  word_boundary (Some a) None = Text.is_word a.
Proof. unfold word_boundary. apply xorb_false_r. Qed.

Lemma stopword_at_sound (before : option codepoint) (s w : str) :
  stopword_at before s = Some w ->
  In w stopwords
  /\ Text.is_prefix w s = true
  /\ word_boundary (hd_error (rev w)) (hd_error (skipn (List.length w) s))
     = true.
Proof.
  unfold stopword_at. destruct (word_boundary before (hd_error s));
    [|discriminate].
  intro H. apply find_some in H. destruct H as [Hin H].
  apply andb_true_iff in H. destruct H as [Hp Hb].
  repeat split; assumption.
Qed.

Lemma occurs_in_prefix (k s : str) :
  Text.is_prefix k s = true -> occurs_in k s = true.
Proof. intro H. destruct s; simpl in *; rewrite H; reflexivity. Qed.

Lemma occurs_in_tail (k : str) (c : codepoint) (s : str) :
  occurs_in k (c :: s) = false -> occurs_in k s = false.
Proof. simpl. intro H. apply orb_false_iff in H. apply H. Qed.

Lemma remove_stopwords_go_without (s : str) (before : option codepoint) :
  forallb (fun w => negb (occurs_in w s)) stopwords = true ->
  remove_stopwords_go 0 before s = s.
Proof.
  revert before. induction s as [|c s IH]; intros prev Hnone;
    [reflexivity|].
  cbn [remove_stopwords_go].
  destruct (stopword_at prev (c :: s)) as [w|] eqn:Hat.
  - exfalso. apply stopword_at_sound in Hat. destruct Hat as [Hin [Hp _]].
    rewrite forallb_forall in Hnone. specialize (Hnone w Hin).
    rewrite (occurs_in_prefix _ _ Hp) in Hnone. discriminate.
  - f_equal. apply IH.
    rewrite forallb_forall in *. intros w Hw. specialize (Hnone w Hw).
    apply negb_true_iff in Hnone. apply negb_true_iff.
    eapply occurs_in_tail, Hnone.
Qed.

(** X17. A text in which none of the noise words occurs passes the noise
    removal unchanged. *)
Theorem remove_stopwords_without_noise :
  forall (s : str),
    forallb (fun w => negb (occurs_in w s)) stopwords = true ->
    remove_stopwords s = s.
Proof.
  intros s H. apply remove_stopwords_go_without, H.
Qed.

Lemma remove_stopwords_without_noise_witness :
  remove_stopwords (utf8 "sony playstation 5 limitée")
  = utf8 "sony playstation 5 limitée".
Proof.
  apply remove_stopwords_without_noise. vm_compute. reflexivity.
Defined.

Lemma remove_stopwords_go_skip_all (s : str) (before : option codepoint) :
  remove_stopwords_go (List.length s) before s = [].
Proof.
  revert before. induction s as [|c s IH]; intros prev; simpl;
    [reflexivity|apply IH].
Qed.

Lemma remove_stopwords_go_inside_word (s : str) (c : codepoint) :
  Text.is_word c = true ->
  Forall (fun x => Text.is_word x = true) s ->
  remove_stopwords_go 0 (Some c) s = s.
Proof.
  intros Hc Hs. revert c Hc.
  induction Hs as [|x s Hx Hs IH]; intros c Hc; [reflexivity|].
  cbn [remove_stopwords_go]. unfold stopword_at.
  cbn [hd_error]. rewrite word_boundary_inside, Hc, Hx. cbn [xorb].
  f_equal. apply IH, Hx.
Qed.

Lemma stopwords_nonempty (w : str) : In w stopwords -> w <> [].
Proof.
  intros Hin ->. revert Hin. vm_compute. intuition discriminate.
Qed.

Lemma is_prefix_refl (s : str) : Text.is_prefix s s = true.
Proof.
  induction s as [|c s IH]; simpl; [reflexivity|].
  rewrite N.eqb_refl. exact IH.
Qed.

(** X18. Noise words go as whole words only. On a text that is a single
    word (letters, digits and underscores throughout) the noise removal
    yields the empty text if the word is one of the noise words, and the
    word itself otherwise, also when it contains a noise word. *)
Theorem remove_stopwords_whole_words_only :
  forall (s : str),
    Forall (fun c => Text.is_word c = true) s ->
    remove_stopwords s = if existsb (Text.eqb s) stopwords then [] else s.
Proof.
  intros s Hs. unfold remove_stopwords.
  destruct s as [|c s']; [reflexivity|].
  inversion Hs as [|? ? Hc Hs']; subst.
  cbn [remove_stopwords_go].
  destruct (stopword_at None (c :: s')) as [w|] eqn:Hat.
  - apply stopword_at_sound in Hat. destruct Hat as [Hin [Hp Hb]].
    pose proof (is_prefix_split _ _ Hp) as Hsplit.
    assert (Hrest : skipn (List.length w) (c :: s') = []).
    { destruct (skipn (List.length w) (c :: s')) as [|x rest] eqn:Hsk;
        [reflexivity|].
      exfalso.
      assert (Hx : Text.is_word x = true).
      { rewrite Forall_forall in Hs. apply Hs. rewrite Hsplit.
        apply in_or_app. right. left. reflexivity. }
      assert (Hlast : exists y, hd_error (rev w) = Some y
                                /\ Text.is_word y = true).
      { destruct (rev w) as [|y r] eqn:Hr.
        - exfalso. apply (stopwords_nonempty Hin).
          rewrite <- (rev_involutive w), Hr. reflexivity.
        - exists y. split; [reflexivity|].
          rewrite Forall_forall in Hs. apply Hs. rewrite Hsplit.
          apply in_or_app. left. apply in_rev. rewrite Hr.
          left. reflexivity. }
      destruct Hlast as [y [Hy Hwy]].
      rewrite Hy in Hb. cbn [hd_error] in Hb.
      rewrite word_boundary_inside, Hwy, Hx in Hb. discriminate. }
    rewrite Hrest, app_nil_r in Hsplit.
    assert (Hlen : List.length w - 1 = List.length s').
    { rewrite <- Hsplit. simpl. lia. }
    rewrite Hlen, remove_stopwords_go_skip_all.
    replace (existsb (Text.eqb (c :: s')) stopwords) with true;
      [reflexivity|].
    symmetry. apply existsb_exists. exists w. split; [exact Hin|].
    apply Text_eqb_eq. exact Hsplit.
  - rewrite (@remove_stopwords_go_inside_word s' c Hc Hs').
    destruct (existsb (Text.eqb (c :: s')) stopwords) eqn:Hex;
      [|reflexivity].
    exfalso. apply existsb_exists in Hex. destruct Hex as [w [Hin Heq]].
    apply Text_eqb_eq in Heq. subst w.
    unfold stopword_at in Hat. cbn [hd_error] in Hat.
    rewrite word_boundary_start, Hc in Hat.
    pose proof (find_none _ _ Hat _ Hin) as Hnone.
    cbv beta in Hnone. rewrite is_prefix_refl in Hnone.
    rewrite skipn_all in Hnone. cbn [andb hd_error] in Hnone.
    assert (Hlast : exists y, hd_error (rev (c :: s')) = Some y
                              /\ Text.is_word y = true).
    { destruct (rev (c :: s')) as [|y r] eqn:Hr.
      - exfalso. apply (f_equal (@List.length _)) in Hr.
        rewrite length_rev in Hr. discriminate.
      - exists y. split; [reflexivity|].
        rewrite Forall_forall in Hs. apply Hs. apply in_rev. rewrite Hr.
        left. reflexivity. }
    destruct Hlast as [y [Hy Hwy]]. rewrite Hy in Hnone.
    rewrite word_boundary_end, Hwy in Hnone. discriminate.
Qed.

Lemma remove_stopwords_whole_words_only_witness :
  remove_stopwords (utf8 "promotion") = utf8 "promotion"
  /\ remove_stopwords (utf8 "promo") = [].
Proof.
  split.
  - rewrite (@remove_stopwords_whole_words_only (utf8 "promotion"));
      [reflexivity|vm_compute; repeat constructor].
  - rewrite (@remove_stopwords_whole_words_only (utf8 "promo"));
      [reflexivity|vm_compute; repeat constructor].
Defined.

(** *** Across the stages *)




Lemma filter_length_le {A} (f : A -> bool) (l : list A) :
  List.length (filter f l) <= List.length l.
Proof.
  induction l as [|x l IH]; simpl; [lia|].
  destruct (f x); simpl; lia.
Qed.

(** X20. The pipeline counts no row twice and none it has not read: the
    occurrence counts of its result add up to the number of rows that
    passed the Anomaly Filter, which is at most the number of rows of
    the feed. *)
Theorem pipeline_counts_bounded_by_feed :
  forall (ties : F64.RoundMode) (config : PipelineConfig)
         (rows : list RawRow),
    list_sum (map occurrence_count (pipeline ties config rows))
    = List.length (run_stages ties config rows)
    /\ list_sum (map occurrence_count (pipeline ties config rows))
       <= List.length rows.
Proof.
  intros ties config rows.
  assert (Hsum : list_sum (map occurrence_count (pipeline ties config rows))
                 = List.length (run_stages ties config rows)).
  { unfold pipeline, aggregate_products. rewrite map_map.
    rewrite (list_sum_Permutation
               (Permutation_map (fun kr => occurrence_count (snd kr))
                  (aggregate_keyed_Permutation ties
                     (run_stages ties config rows)))).
    rewrite map_map. simpl.
    apply (@count_by_keys _ _ (distinct_NoDup _)).
    intros j Hj. apply distinct_In, in_map, Hj. }
  split; [exact Hsum|]. rewrite Hsum.
  unfold run_stages, filter_anomalies, with_group_mean,
    generate_fingerprints, normalize_pricing.
  eapply Nat.le_trans; [apply filter_length_le|].
  rewrite !length_map. lia.
Qed.
